(** * An in-memory time-series engine: shallow embedding and properties

    The repository holds two generations of the engine:
    - package [memtsdb]: the windowed engine, which routes points to
      one-minute shard groups ([shardGroup], [tsdb], [InsertPoints],
      [Query]);
    - package [tsdb]: the generic single-shard engine with hash
      partitions, per-series entries and retention ([entry], [partition],
      [shard], [TSDB], [WritePoints], [Stop]).

    Go values are modelled as follows.  [time.Time] is the number of
    nanoseconds since Go's zero time, an unbounded integer;
    [time.Duration] and [int64] are integers, with saturation or
    wrap-around written where the Go library has it.  A slice is a list
    together with its capacity where the code looks at [cap].  A Go map
    with string keys is a [gmap string _].  Objects reached through
    pointers or interfaces and mutated in place live in an explicit
    object store.  A run-time panic is [None]. *)

From Stdlib Require Import ZArith Lia List Bool.
From stdpp Require Import gmap strings list fin_maps.

(** ** Go's [time] package, as far as the engine uses it *)

Module GoTime.
Local Open Scope Z_scope.

Abbreviation Time := Z (only parsing).
Abbreviation Duration := Z (only parsing).

Definition Nanosecond : Duration := 1.
Definition Second : Duration := 1000000000 * Nanosecond.
Definition Minute : Duration := 60 * Second.

Definition minDuration : Duration := - 2 ^ 63.
Definition maxDuration : Duration := 2 ^ 63 - 1.

(** [t.Add(d)] *)
Definition Add (t : Time) (d : Duration) : Time := t + d.

(** [t.Sub(u)]: the difference, saturated to the range of [Duration]. *)
Definition Sub (t u : Time) : Duration :=
  let d := t - u in
  if d <? minDuration then minDuration
  else if maxDuration <? d then maxDuration
  else d.

Definition Before (t u : Time) : bool := t <? u.
Definition After (t u : Time) : bool := u <? t.
Definition Equal (t u : Time) : bool := t =? u.

(** [t.Round(d)]: nearest multiple of [d] since the zero time, halfway
    values rounding up; [t] itself when [d <= 0]. *)
Definition Round (t : Time) (d : Duration) : Time :=
  if d <=? 0 then t
  else
    let r := t mod d in
    if r + r <? d then Add t (- r) else Add t (d - r).

(** Seconds between the zero time and the Unix epoch. *)
Definition unixToInternal : Z :=
  (1969 * 365 + 1969 / 4 - 1969 / 100 + 1969 / 400) * 86400.

(** [time.Unix(sec, nsec)] *)
Definition Unix (sec nsec : Z) : Time := (sec + unixToInternal) * Second + nsec.

(** Conversion to [int64], wrapping. *)
Definition to_int64 (z : Z) : Z := (z + 2 ^ 63) mod 2 ^ 64 - 2 ^ 63.

(** [t.UnixNano()] *)
Definition UnixNano (t : Time) : Z := to_int64 (t - unixToInternal * Second).

End GoTime.

(** ** Package [memtsdb]: the windowed engine *)

Module memtsdb.
Local Open Scope Z_scope.

Definition _shardGroupDuration : GoTime.Duration := 1 * GoTime.Minute.

Record Tag := { Key : string; Value : string }.

Record Point (T : Type) := { Tags : list Tag; Time : GoTime.Time; Field : T }.
Arguments Tags {T} _.
Arguments Time {T} _.
Arguments Field {T} _.

(** The [Shard] a group owns is used through three operations only:
    [NewShard()], [Insert(point)] and [Query(tag, min, max)]. *)
Class Shard (T : Type) := {
  shard_state : Type;
  NewShard : shard_state;
  Shard_Insert : Point T -> shard_state -> shard_state;
  Shard_Query : Tag -> GoTime.Time -> GoTime.Time -> shard_state -> list (Point T)
}.

(** A shard group: the window [[min, max)] and a reference to its shard
    in the object store. *)
Record shardGroup := { max : GoTime.Time; min : GoTime.Time; shard : nat }.

Definition initTime (g : shardGroup) (t : GoTime.Time) (round : GoTime.Duration)
  : shardGroup :=
  let rounded := GoTime.Round t round in
  if 0 <=? GoTime.Sub rounded t then
    (* round up *)
    {| max := rounded; min := GoTime.Add rounded (- round); shard := shard g |}
  else
    (* round down *)
    {| max := GoTime.Add rounded round; min := rounded; shard := shard g |}.

Definition contains (g : shardGroup) (t : GoTime.Time) : bool :=
  if GoTime.Before (min g) t && GoTime.After (max g) t then true
  else if GoTime.Equal (min g) t then true
  else false.

Definition have (g : shardGroup) (qmin qmax : GoTime.Time) : bool :=
  if GoTime.Before (min g) qmin && GoTime.After (max g) qmin then true
  else if GoTime.Before (min g) qmax && GoTime.After (max g) qmax then true
  else if GoTime.Equal (min g) qmin then true
  else false.

Record tsdb := {
  rd : GoTime.Duration;
  sgs : list shardGroup;
  emptySgs : list shardGroup
}.

Definition NewTSDB (retentionDuration : GoTime.Duration) : tsdb :=
  {| rd := retentionDuration; sgs := []; emptySgs := [] |}.

(** The store of shard objects; a [shardGroup] refers to its shard by
    position. *)
Abbreviation objects := (list shard_state) (only parsing).

Section Engine.
Context {T : Type} `{Shard T}.


(** [newShardGroup]: allocates a shard, then sets the window. *)
Definition newShardGroup (t : GoTime.Time) (round : GoTime.Duration) (h : objects)
  : shardGroup * objects :=
  let sg := {| max := 0; min := 0; shard := length h |} in
  (initTime sg t round, h ++ [NewShard]).

Definition getShardGroup (t : tsdb) (h : objects) (ti : GoTime.Time)
  : shardGroup * tsdb * objects :=
  match List.find (fun sg => contains sg ti) (sgs t) with
  | Some sg => (sg, t, h)
  | None =>
      let '(sg, t1, h1) :=
        match last (emptySgs t) with
        | None (* len(t.emptySgs) == 0 *) =>
            let '(sg, h1) := newShardGroup ti _shardGroupDuration h in
            (sg, t, h1)
        | Some sg0 =>
            (* pop a shardGroup from used groups *)
            (initTime sg0 ti _shardGroupDuration,
             {| rd := rd t; sgs := sgs t; emptySgs := removelast (emptySgs t) |},
             h)
        end in
      (sg, {| rd := rd t1; sgs := sgs t1 ++ [sg]; emptySgs := emptySgs t1 |}, h1)
  end.

(** [InsertPoints]; [None] is the panic of calling [Insert] through a
    reference to no shard. *)
Fixpoint InsertPoints (t : tsdb) (h : objects) (points : list (Point T))
  : option (tsdb * objects) :=
  match points with
  | [] => Some (t, h)
  | point :: rest =>
      let '(sg, t1, h1) := getShardGroup t h (Time point) in
      match h1 !! shard sg with
      | None => None
      | Some s => InsertPoints t1 (<[shard sg := Shard_Insert point s]> h1) rest
      end
  end.

Fixpoint Query_loop (groups : list shardGroup) (h : objects) (tag : Tag)
  (qmin qmax : GoTime.Time) (ps : list (Point T)) : option (list (Point T)) :=
  match groups with
  | [] => Some ps
  | sg :: rest =>
      if negb (have sg qmin qmax) then Query_loop rest h tag qmin qmax ps
      else
        match h !! shard sg with
        | None => None
        | Some s => Query_loop rest h tag qmin qmax (ps ++ Shard_Query tag qmin qmax s)
        end
  end.

Definition Query (t : tsdb) (h : objects) (tag : Tag) (qmin qmax : GoTime.Time)
  : option (list (Point T)) :=
  Query_loop (sgs t) h tag qmin qmax [].

(** The engine states a program can see: a new engine, and what calls of
    [InsertPoints] and [Query] that return make of it. *)
Inductive reachable : tsdb -> objects -> Prop :=
| reach_NewTSDB retentionDuration : reachable (NewTSDB retentionDuration) []
| reach_InsertPoints t h points t1 h1 :
    reachable t h -> InsertPoints t h points = Some (t1, h1) -> reachable t1 h1
| reach_Query t h tag qmin qmax ps :
    reachable t h -> Query t h tag qmin qmax = Some ps -> reachable t h.

(** [getShardGroup] with the branch that reuses a pooled group taken
    out: a group is found, or a new one is allocated. *)
Definition getShardGroup_fresh (t : tsdb) (h : objects) (ti : GoTime.Time)
  : shardGroup * tsdb * objects :=
  match List.find (fun sg => contains sg ti) (sgs t) with
  | Some sg => (sg, t, h)
  | None =>
      let '(sg, h1) := newShardGroup ti _shardGroupDuration h in
      (sg, {| rd := rd t; sgs := sgs t ++ [sg]; emptySgs := emptySgs t |}, h1)
  end.

(** The references of the active groups point into the object store,
    and no group is pooled. *)
Definition wf (t : tsdb) (h : objects) : Prop :=
  Forall (fun sg => (shard sg < length h)%nat) (sgs t) /\ emptySgs t = [].

End Engine.

(** Two windows are disjoint when no instant lies in both. *)
Definition disjoint (a b : shardGroup) : Prop :=
  forall t : GoTime.Time, ~ (min a <= t < max a /\ min b <= t < max b).

(** The groups at different positions of the active list have disjoint
    windows. *)
Definition pairwise_disjoint (groups : list shardGroup) : Prop :=
  forall (i j : nat) (g1 g2 : shardGroup),
    i <> j -> groups !! i = Some g1 -> groups !! j = Some g2 -> disjoint g1 g2.


End memtsdb.

(** ** File [shard.go]: entries, partitions and the shard *)

Module shard.
Local Open Scope Z_scope.

Definition _partitionNum : nat := 16.

(** What the code takes from outside the repository: the capacity a
    slice gets when [append] outgrows it (Go's runtime), and the 64-bit
    hash of a key ([xxhash.Sum64], an unsigned number). *)
Class Runtime := {
  growcap : nat -> nat -> nat;
  Sum64 : string -> N
}.

Record Value (T : Type) := { UnixNano : Z; V : T }.
Arguments UnixNano {T} _.
Arguments V {T} _.

(** A slice: its elements and its capacity. *)
Record slice (A : Type) := { elems : list A; cap : nat }.
Arguments elems {A} _.
Arguments cap {A} _.

(** [make([]A, 0, c)] *)
Definition make {A : Type} (c : nat) : slice A := {| elems := []; cap := c |}.

(** [append(s, xs...)]: in place while the capacity suffices. *)
Definition append `{Runtime} {A : Type} (s : slice A) (xs : list A) : slice A :=
  let n := (length (elems s) + length xs)%nat in
  if (n <=? cap s)%nat then {| elems := elems s ++ xs; cap := cap s |}
  else {| elems := elems s ++ xs; cap := growcap (cap s) n |}.

Record entry (T : Type) := { values : slice (Value T) }.
Arguments values {T} _.

Record partition (T : Type) := { store : gmap string (entry T) }.
Arguments store {T} _.

Record shard (T : Type) := { partitions : list (partition T) }.
Arguments partitions {T} _.

Section Shard.
Context `{Runtime} {T : Type}.

Definition newEntry (vs : list (Value T)) : entry T :=
  {| values := append (make (length vs)) vs |}.

Definition add (e : entry T) (vs : list (Value T)) : entry T :=
  {| values := append (values e) vs |}.

Definition entry_removeBefore (e : entry T) (unixNano : Z) : entry T :=
  {| values :=
       fold_left
         (fun acc v => if unixNano <=? UnixNano v then append acc [v] else acc)
         (elems (values e))
         (make (length (elems (values e)))) |}.

Definition entry_valuesBetween (e : entry T) (lo hi : Z) : list (Value T) :=
  fold_left
    (fun acc v =>
       if (lo <=? UnixNano v) && (UnixNano v <=? hi) then acc ++ [v] else acc)
    (elems (values e)) [].

Definition newPartition : partition T := {| store := ∅ |}.

(** [write]: the probe under the read lock, then the second look under
    the write lock, then the creation. *)
Definition partition_write (p : partition T) (key : string) (vs : list (Value T))
  : partition T :=
  match store p !! key with
  | Some e => {| store := <[key := add e vs]> (store p) |}
  | None =>
      match store p !! key with
      | Some e => {| store := <[key := add e vs]> (store p) |}
      | None => {| store := <[key := newEntry vs]> (store p) |}
      end
  end.

(** [removeBefore]: every entry is swept; the new map receives those
    whose slice still has capacity. *)
Definition partition_removeBefore (p : partition T) (unixNano : Z) : partition T :=
  {| store :=
       omap (fun e =>
               let e' := entry_removeBefore e unixNano in
               if (cap (values e') =? 0)%nat then None else Some e')
            (store p) |}.

Definition partition_valuesBetween (p : partition T) (key : string) (lo hi : Z)
  : list (Value T) :=
  match store p !! key with
  | None => []
  | Some e => entry_valuesBetween e lo hi
  end.

Definition newShard : shard T :=
  {| partitions := Nat.iter _partitionNum (fun ps => ps ++ [newPartition]) [] |}.

Definition shard_removeBefore (s : shard T) (unixNano : Z) : shard T :=
  {| partitions := map (fun p => partition_removeBefore p unixNano) (partitions s) |}.

(** [getPartitions]: the slot [int(hash % uint64(len))] and the partition
    in it.  [None] is a panic: division by zero, or an index out of
    range. *)
Definition getPartitions (s : shard T) (key : string) : option (nat * partition T) :=
  let n := N.of_nat (length (partitions s)) in
  if (n =? 0)%N then None
  else
    let i := GoTime.to_int64 (Z.of_N (Sum64 key mod n)%N) in
    if (i <? 0) || (Z.of_nat (length (partitions s)) <=? i) then None
    else
      match partitions s !! Z.to_nat i with
      | None => None
      | Some p => Some (Z.to_nat i, p)
      end.

(** [writeMulti]: one [write] per key of the batch. *)
Definition writeMulti (s : shard T) (batch : gmap string (list (Value T)))
  : option (shard T) :=
  map_fold
    (fun k v acc =>
       match acc with
       | None => None
       | Some s1 =>
           match getPartitions s1 k with
           | None => None
           | Some (i, p) =>
               Some {| partitions := <[i := partition_write p k v]> (partitions s1) |}
           end
       end)
    (Some s) batch.

(** The shards a running engine can hold: a new one, changed by
    [writeMulti] and [removeBefore]. *)
Inductive shard_reachable : shard T -> Prop :=
| reach_new : shard_reachable newShard
| reach_writeMulti s batch s1 :
    shard_reachable s -> writeMulti s batch = Some s1 -> shard_reachable s1
| reach_removeBefore s unixNano :
    shard_reachable s -> shard_reachable (shard_removeBefore s unixNano).

End Shard.

End shard.

(** ** Package [tsdb]: the generic engine over one shard *)

Module tsdb.
Local Open Scope Z_scope.

Abbreviation Tag := memtsdb.Tag (only parsing).

Record Point (T : Type) := { tags : list Tag; time : GoTime.Time; field : T }.
Arguments tags {T} _.
Arguments time {T} _.
Arguments field {T} _.

(** What the engine calls and this file set does not define: the series
    key of a tag list ([point.Series()]) and the index with its two
    operations. *)
Class Collaborators := {
  Series : list Tag -> string;
  index : Type;
  newIndex : index;
  createSeriesIfNotExists : index -> gmap string (list Tag) -> index
}.

Inductive error := ErrDBClosed | ErrPointMissingTag.

(** The engine.  [gcRunning] stands for the [stop] channel together with
    the [gc] goroutine started by [New]: it holds while that goroutine is
    still in its loop, ready to receive on [stop]. *)
Record TSDB `{Collaborators} (T : Type) := {
  retentionPolicy : GoTime.Duration;
  gcRunning : bool;
  isClosed : bool;
  idx : index;
  store : shard.shard T
}.
Arguments retentionPolicy {_ T} _.
Arguments gcRunning {_ T} _.
Arguments isClosed {_ T} _.
Arguments idx {_ T} _.
Arguments store {_ T} _.

Section Engine.
Context `{shard.Runtime} `{Collaborators} {T : Type}.

(** [New].  The [gc] goroutine it starts calls [time.NewTicker], which
    panics on a retention that is not positive; that ends the program
    ([None]). *)
Definition New (retention : GoTime.Duration) : option (TSDB T) :=
  if retention <=? 0 then None
  else
    Some {| retentionPolicy := retention; gcRunning := true; isClosed := false;
            idx := newIndex; store := shard.newShard |}.

(** The loop of [WritePoints] over the batch: either the error it
    returns with, or the two maps it has built. *)
Fixpoint groupPoints (points : list (Point T))
  (seriesTags : gmap string (list Tag)) (values : gmap string (list (shard.Value T)))
  : error + gmap string (list Tag) * gmap string (list (shard.Value T)) :=
  match points with
  | [] => inr (seriesTags, values)
  | point :: rest =>
      let s := Series (tags point) in
      if (String.length s =? 0)%nat then inl ErrPointMissingTag
      else
        let v := {| shard.UnixNano := GoTime.UnixNano (time point);
                    shard.V := field point |} in
        let values1 := <[s := default [] (values !! s) ++ [v]]> values in
        match seriesTags !! s with
        | Some _ => groupPoints rest seriesTags values1
        | None => groupPoints rest (<[s := tags point]> seriesTags) values1
        end
  end.

(** [WritePoints]: the returned error ([None] for [nil]) and the engine
    afterwards; the outer [None] is a panic inside [writeMulti]. *)
Definition WritePoints (db : TSDB T) (points : list (Point T))
  : option (option error * TSDB T) :=
  if isClosed db then Some (Some ErrDBClosed, db)
  else
    match groupPoints points ∅ ∅ with
    | inl err => Some (Some err, db)
    | inr (seriesTags, values) =>
        let idx1 := createSeriesIfNotExists (idx db) seriesTags in
        match shard.writeMulti (store db) values with
        | None => None
        | Some store1 =>
            Some (None,
                  {| retentionPolicy := retentionPolicy db; gcRunning := gcRunning db;
                     isClosed := isClosed db; idx := idx1; store := store1 |})
        end
    end.

(** [Stop]: the send on [stop] completes only while [gc] is there to
    receive it, and [gc] returns on receipt; otherwise the call blocks
    for ever ([None]). *)
Definition Stop (db : TSDB T) : option (TSDB T) :=
  if gcRunning db then
    Some {| retentionPolicy := retentionPolicy db; gcRunning := false;
            isClosed := true; idx := idx db; store := store db |}
  else None.

(** One tick of [gc] at wall-clock time [now]. *)
Definition gcTick (db : TSDB T) (now : GoTime.Time) : option (TSDB T) :=
  if gcRunning db then
    let remove := GoTime.UnixNano (GoTime.Add now (- retentionPolicy db)) in
    Some {| retentionPolicy := retentionPolicy db; gcRunning := gcRunning db;
            isClosed := isClosed db; idx := idx db;
            store := shard.shard_removeBefore (store db) remove |}
  else None.

(** Everything that can happen to an engine: a call of its API that
    returns, or a tick of its [gc]. *)
Inductive step : TSDB T -> TSDB T -> Prop :=
| step_WritePoints db points err db1 :
    WritePoints db points = Some (err, db1) -> step db db1
| step_Stop db db1 :
    Stop db = Some db1 -> step db db1
| step_gc db now db1 :
    gcTick db now = Some db1 -> step db db1.

Inductive steps : TSDB T -> TSDB T -> Prop :=
| steps_refl db : steps db db
| steps_next db db1 db2 : steps db db1 -> step db1 db2 -> steps db db2.

End Engine.

End tsdb.

(** ** Collaborators that are not in this file set *)

Module modelled.
Local Open Scope Z_scope.

(** Modelled from the spec: the shard of package [memtsdb] ([NewShard],
    [Insert], [Query]), of which the repository files at hand hold the
    tests only.  It keeps the inserted points in order and, per tag key and tag value, the
    positions of the points that carry the tag; a query walks the
    positions of its tag and keeps the points with
    [min <= Time <= max]. *)
Record memShard (T : Type) := {
  values : list (memtsdb.Point T);
  index : gmap string (gmap string (list nat))
}.
Arguments values {T} _.
Arguments index {T} _.

Definition NewMemShard {T : Type} : memShard T := {| values := []; index := ∅ |}.

Definition updateIndex {T : Type} (s : memShard T) (id : nat) (tag : memtsdb.Tag)
  : memShard T :=
  let byValue := default ∅ (index s !! memtsdb.Key tag) in
  let ids := default [] (byValue !! memtsdb.Value tag) in
  {| values := values s;
     index := <[memtsdb.Key tag := <[memtsdb.Value tag := ids ++ [id]]> byValue]> (index s) |}.

Definition memShard_Insert {T : Type} (point : memtsdb.Point T) (s : memShard T)
  : memShard T :=
  let id := length (values s) in
  fold_left (fun s1 tag => updateIndex s1 id tag) (memtsdb.Tags point)
    {| values := values s ++ [point]; index := index s |}.

Definition memShard_Query {T : Type} (tag : memtsdb.Tag) (qmin qmax : GoTime.Time)
  (s : memShard T) : list (memtsdb.Point T) :=
  let ids := default [] (default ∅ (index s !! memtsdb.Key tag) !! memtsdb.Value tag) in
  fold_left
    (fun ps id =>
       match values s !! id with
       | Some p =>
           if (qmin <=? memtsdb.Time p) && (memtsdb.Time p <=? qmax) then ps ++ [p] else ps
       | None => ps
       end)
    ids [].

#[export] Instance memShard_Shard (T : Type) : memtsdb.Shard T := {|
  memtsdb.shard_state := memShard T;
  memtsdb.NewShard := NewMemShard;
  memtsdb.Shard_Insert := memShard_Insert;
  memtsdb.Shard_Query := memShard_Query
|}.

(** Modelled from the spec: [Series], the canonical key of a tag list,
    which does not depend on the order of the tags and is empty for no
    tags: the tags sorted by key, written [key=value] and joined by
    commas. *)
Fixpoint insertTag (tag : memtsdb.Tag) (sorted : list memtsdb.Tag) : list memtsdb.Tag :=
  match sorted with
  | [] => [tag]
  | t :: rest =>
      if String.leb (memtsdb.Key tag) (memtsdb.Key t) then tag :: sorted
      else t :: insertTag tag rest
  end.

Definition Series (tags : list memtsdb.Tag) : string :=
  String.concat ","
    (map (fun t => memtsdb.Key t +:+ "=" +:+ memtsdb.Value t)
         (fold_right insertTag [] tags)).

(** Modelled from the spec: the index of package [tsdb]; per tag key and
    tag value, the set of series keys that carry the tag. *)
Definition tagIndex := gmap string (gmap string (gset string)).

Definition addSeries (idx : tagIndex) (s : string) (tag : memtsdb.Tag) : tagIndex :=
  let byValue := default ∅ (idx !! memtsdb.Key tag) in
  let series := default ∅ (byValue !! memtsdb.Value tag) in
  <[memtsdb.Key tag := <[memtsdb.Value tag := {[s]} ∪ series]> byValue]> idx.

Definition createSeriesIfNotExists (idx : tagIndex)
  (seriesTags : gmap string (list memtsdb.Tag)) : tagIndex :=
  map_fold (fun s tags acc => fold_left (fun acc1 tag => addSeries acc1 s tag) tags acc)
    idx seriesTags.

#[export] Instance collaborators : tsdb.Collaborators := {|
  tsdb.Series := Series;
  tsdb.index := tagIndex;
  tsdb.newIndex := ∅;
  tsdb.createSeriesIfNotExists := createSeriesIfNotExists
|}.

(** A runtime to run examples with: capacities double, and the hash of a
    key is the sum of its character codes.  No property below depends on
    this choice. *)
Fixpoint sumCodes (s : string) : N :=
  match s with
  | EmptyString => 0%N
  | String c rest => (Ascii.N_of_ascii c + sumCodes rest)%N
  end.

#[export] Instance runtime : shard.Runtime := {|
  shard.growcap := fun oldCap needed => Nat.max needed (2 * oldCap);
  shard.Sum64 := fun key => (sumCodes key mod 2 ^ 64)%N
|}.

End modelled.

(** ** Sample data *)

Module samples.
Local Open Scope Z_scope.

Definition ab : memtsdb.Tag := {| memtsdb.Key := "a"; memtsdb.Value := "b" |}.

(** A point tagged [a=b] at [sec] seconds after the Unix epoch. *)
Definition pointAt (sec field : Z) : memtsdb.Point Z :=
  {| memtsdb.Tags := [ab]; memtsdb.Time := GoTime.Unix sec 0; memtsdb.Field := field |}.

(** The same for the generic engine, and a point without tags. *)
Definition taggedAt (sec field : Z) : tsdb.Point Z :=
  {| tsdb.tags := [ab]; tsdb.time := GoTime.Unix sec 0; tsdb.field := field |}.

Definition untaggedAt (sec field : Z) : tsdb.Point Z :=
  {| tsdb.tags := []; tsdb.time := GoTime.Unix sec 0; tsdb.field := field |}.

(** The engine [New(time.Minute)] returns, and the same engine once
    [Stop] has returned. *)
Definition newEngine : tsdb.TSDB (H := modelled.collaborators) Z :=
  {| tsdb.retentionPolicy := GoTime.Minute; tsdb.gcRunning := true;
     tsdb.isClosed := false; tsdb.idx := ∅; tsdb.store := shard.newShard |}.

Definition stoppedEngine : tsdb.TSDB (H := modelled.collaborators) Z :=
  {| tsdb.retentionPolicy := GoTime.Minute; tsdb.gcRunning := false;
     tsdb.isClosed := true; tsdb.idx := ∅; tsdb.store := shard.newShard |}.

End samples.

(** ** Observations used to state further properties *)

Module views.
Local Open Scope Z_scope.

(** The test of [valuesBetween] on one value. *)
Definition between {T : Type} (lo hi : Z) (v : shard.Value T) : bool :=
  (lo <=? shard.UnixNano v) && (shard.UnixNano v <=? hi).

Section Windowed.
Context {T : Type} `{memtsdb.Shard T}.

(** There are as many shard objects as active groups, and the group at
    position [i] refers to the object at position [i]. *)
Definition linked (t : memtsdb.tsdb) (h : memtsdb.objects) : Prop :=
  length h = length (memtsdb.sgs t) /\
  forall (i : nat) (g : memtsdb.shardGroup),
    memtsdb.sgs t !! i = Some g -> memtsdb.shard g = i.

End Windowed.

Section Storage.
Context `{shard.Runtime} {T : Type}.

(** What a reader of a series gets: the partition [getPartitions]
    selects for the key, asked with [valuesBetween].  The file has no
    function for it; these are the two calls a reader makes. *)
Definition readSeries (s : shard.shard T) (key : string) (lo hi : Z)
  : option (list (shard.Value T)) :=
  match shard.getPartitions s key with
  | None => None
  | Some (_, p) => Some (shard.partition_valuesBetween p key lo hi)
  end.

(** Every series of a shard is stored in the partition its hash
    selects. *)
Definition placed (s : shard.shard T) : Prop :=
  forall (j : nat) (p : shard.partition T) (key : string),
    shard.partitions s !! j = Some p -> is_Some (shard.store p !! key) ->
    j = N.to_nat (shard.Sum64 key mod 16).

End Storage.

Section Engine.
Context `{shard.Runtime} `{tsdb.Collaborators} {T : Type}.

(** The value [WritePoints] stores for a point. *)
Definition pointValue (point : tsdb.Point T) : shard.Value T :=
  {| shard.UnixNano := GoTime.UnixNano (tsdb.time point); shard.V := tsdb.field point |}.

Definition hasKey (key : string) (point : tsdb.Point T) : bool :=
  String.eqb (tsdb.Series (tsdb.tags point)) key.

(** The values of the points of a batch that belong to a series, in the
    order of the batch. *)
Definition valuesOf (key : string) (points : list (tsdb.Point T)) : list (shard.Value T) :=
  map pointValue (List.filter (hasKey key) points).

(** The tags of the first point of a batch that belongs to a series. *)
Definition firstTags (key : string) (points : list (tsdb.Point T)) : option (list tsdb.Tag) :=
  option_map tsdb.tags (List.find (hasKey key) points).

(** Whether a point has an empty series key. *)
Definition emptyKey (point : tsdb.Point T) : bool :=
  (String.length (tsdb.Series (tsdb.tags point)) =? 0)%nat.

(** The engines a program can hold: what [New] returned, after any
    number of steps. *)
Definition engine_reachable (db : tsdb.TSDB T) : Prop :=
  exists (retention : Z) (db0 : tsdb.TSDB T),
    tsdb.New retention = Some db0 /\ tsdb.steps db0 db.

(** What holds of every engine a program can hold: it is closed exactly
    when its [gc] has returned, its store is a shard as [newShard],
    [writeMulti] and [removeBefore] make them, and its retention is
    positive. *)
Definition sound (db : tsdb.TSDB T) : Prop :=
  tsdb.isClosed db = negb (tsdb.gcRunning db) /\
  shard.shard_reachable (tsdb.store db) /\
  0 < tsdb.retentionPolicy db.

(** The error [WritePoints] returns for a batch on an engine: the
    closed-engine error on a closed engine, else the missing-tag error
    when a point has an empty key, else none. *)
Definition expectedError (db : tsdb.TSDB T) (points : list (tsdb.Point T))
  : option tsdb.error :=
  if tsdb.isClosed db then Some tsdb.ErrDBClosed
  else if existsb emptyKey points then Some tsdb.ErrPointMissingTag
  else None.

End Engine.

End views.

(** ** More sample data *)

Module more_samples.
Local Open Scope Z_scope.

(** The windowed engine after the points at 00:01:30 and 00:02:30: two
    groups, two shards. *)
Definition twoGroups : memtsdb.tsdb :=
  {| memtsdb.rd := GoTime.Minute;
     memtsdb.sgs :=
       [ {| memtsdb.max := GoTime.Unix 120 0; memtsdb.min := GoTime.Unix 60 0;
            memtsdb.shard := 0%nat |};
         {| memtsdb.max := GoTime.Unix 180 0; memtsdb.min := GoTime.Unix 120 0;
            memtsdb.shard := 1%nat |} ];
     memtsdb.emptySgs := [] |}.

Definition twoShards : list (@memtsdb.shard_state Z (modelled.memShard_Shard Z)) :=
  [ modelled.memShard_Insert (samples.pointAt 90 1) modelled.NewMemShard;
    modelled.memShard_Insert (samples.pointAt 150 2) modelled.NewMemShard ].

(** A window of one minute and two values of a series. *)
Definition minuteOne : memtsdb.shardGroup :=
  {| memtsdb.max := GoTime.Unix 120 0; memtsdb.min := GoTime.Unix 60 0;
     memtsdb.shard := 0%nat |}.

Definition value (unixNano v : Z) : shard.Value Z :=
  {| shard.UnixNano := unixNano; shard.V := v |}.

(** A batch for two series, and a point of another series. *)
Definition cd : memtsdb.Tag := {| memtsdb.Key := "c"; memtsdb.Value := "d" |}.

Definition otherAt (sec field : Z) : tsdb.Point Z :=
  {| tsdb.tags := [cd]; tsdb.time := GoTime.Unix sec 0; tsdb.field := field |}.

End more_samples.

(** * Properties *)

(** Case analysis on every integer comparison of the goal. *)
Ltac zbool :=
  repeat match goal with
  | |- context [(?x =? ?y)%Z] => destruct (Z.eqb_spec x y)
  | |- context [(?x <? ?y)%Z] => destruct (Z.ltb_spec x y)
  | |- context [(?x <=? ?y)%Z] => destruct (Z.leb_spec x y)
  end.

(** ** The windows of [initTime] *)

Module window_props.
Import memtsdb.
Local Open Scope Z_scope.

(** A rounded instant is a multiple of the bucket. *)
Lemma Round_multiple (t d : Z) : 0 < d -> (GoTime.Round t d) mod d = 0.
Proof.
  intros Hd. unfold GoTime.Round, GoTime.Add.
  destruct (Z.leb_spec d 0); [lia|].
  destruct (Z.ltb_spec (t mod d + t mod d) d).
  - replace (t + - (t mod d)) with (t - t mod d) by lia.
    rewrite Zminus_mod_idemp_r. replace (t - t) with 0 by lia. apply Z.mod_0_l; lia.
  - replace (t + (d - t mod d)) with ((t - t mod d) + 1 * d) by lia.
    rewrite Z_mod_plus_full, Zminus_mod_idemp_r.
    replace (t - t) with 0 by lia. apply Z.mod_0_l; lia.
Qed.


(** [initTime] leaves the shard of the group alone. *)
Lemma initTime_shard (g : shardGroup) (t d : Z) : shard (initTime g t d) = shard g.
Proof. unfold initTime. destruct (0 <=? _); reflexivity. Qed.









End window_props.

(** ** The windowed engine *)

Module engine_props.
Import memtsdb window_props.
Local Open Scope Z_scope.

Section Generic.
Context {T : Type} `{Shard T}.

Lemma wf_NewTSDB (retentionDuration : Z) : wf (NewTSDB retentionDuration) [].
Proof. split; [constructor | reflexivity]. Qed.

(** With an empty pool, [getShardGroup] finds a group or allocates one. *)
Lemma getShardGroup_no_pool (t : tsdb) (h : objects) (ti : Z) :
  emptySgs t = [] -> getShardGroup t h ti = getShardGroup_fresh t h ti.
Proof.
  intros He. unfold getShardGroup, getShardGroup_fresh.
  destruct (List.find _ _); [reflexivity|].
  rewrite He. cbn. destruct t; cbn in *. subst. reflexivity.
Qed.

Lemma getShardGroup_wf (t : tsdb) (h : objects) (ti : Z) sg t1 h1 :
  wf t h -> getShardGroup t h ti = (sg, t1, h1) ->
  wf t1 h1 /\ (shard sg < length h1)%nat.
Proof.
  intros [Hrefs He] Hg. rewrite getShardGroup_no_pool in Hg by assumption.
  unfold getShardGroup_fresh in Hg.
  destruct (List.find _ _) as [g|] eqn:Hfind.
  - inversion Hg; subst. split; [split; assumption|].
    apply List.find_some in Hfind as [Hin _].
    rewrite Forall_forall in Hrefs. apply Hrefs, list_elem_of_In, Hin.
  - unfold newShardGroup in Hg. inversion Hg; subst.
    assert (Hnew : (shard (initTime {| max := 0; min := 0; shard := length h |} ti
                             _shardGroupDuration) < length (h ++ [NewShard]))%nat).
    { rewrite initTime_shard, length_app. cbn. lia. }
    split; [split; [|assumption] | exact Hnew]. cbn.
    apply Forall_app. split.
    + eapply Forall_impl; [exact Hrefs|]. cbn. intros g Hg1.
      rewrite length_app. cbn. lia.
    + constructor; [exact Hnew | constructor].
Qed.

Lemma InsertPoints_cons (t : tsdb) (h : objects) (point : Point T) rest :
  InsertPoints t h (point :: rest) =
  let '(sg, t1, h1) := getShardGroup t h (Time point) in
  match h1 !! shard sg with
  | None => None
  | Some s => InsertPoints t1 (<[shard sg := Shard_Insert point s]> h1) rest
  end.
Proof. reflexivity. Qed.

(** On a well-formed engine [InsertPoints] returns, and the engine
    stays well formed. *)
Lemma InsertPoints_total (points : list (Point T)) (t : tsdb) (h : objects) :
  wf t h -> exists t1 h1, InsertPoints t h points = Some (t1, h1) /\ wf t1 h1.
Proof.
  revert t h. induction points as [|point rest IH]; intros t h Hwf.
  - cbn. eauto.
  - rewrite InsertPoints_cons.
    destruct (getShardGroup t h (Time point)) as [[sg t1] h1] eqn:Hg.
    destruct (getShardGroup_wf _ _ _ _ _ _ Hwf Hg) as [[Hrefs He] Hlt].
    destruct (lookup_lt_is_Some_2 h1 (shard sg) Hlt) as [s Hs]. rewrite Hs.
    apply IH. split; [|assumption].
    eapply Forall_impl; [exact Hrefs|]. cbn. intros g Hg1.
    rewrite length_insert. exact Hg1.
Qed.

Lemma Query_loop_total (groups : list shardGroup) (h : objects) tag qmin qmax ps :
  Forall (fun sg => (shard sg < length h)%nat) groups ->
  is_Some (Query_loop groups h tag qmin qmax ps).
Proof.
  revert ps. induction groups as [|sg rest IH]; intros ps Hrefs.
  - cbn. eauto.
  - change (Query_loop (sg :: rest) h tag qmin qmax ps) with
      (if negb (have sg qmin qmax) then Query_loop rest h tag qmin qmax ps
       else match h !! shard sg with
            | None => None
            | Some s => Query_loop rest h tag qmin qmax (ps ++ Shard_Query tag qmin qmax s)
            end).
    inversion Hrefs as [|? ? Hlt Hrest]; subst.
    destruct (negb _); [apply IH, Hrest|].
    destruct (lookup_lt_is_Some_2 h (shard sg) Hlt) as [s Hs]. rewrite Hs.
    apply IH, Hrest.
Qed.

(** On a well-formed engine [Query] returns. *)
Lemma Query_total (t : tsdb) (h : objects) tag qmin qmax :
  wf t h -> is_Some (Query t h tag qmin qmax).
Proof. intros [Hrefs _]. apply Query_loop_total, Hrefs. Qed.

Lemma reachable_wf (t : tsdb) (h : objects) : reachable t h -> wf t h.
Proof.
  induction 1 as [rd0 | t h points t1 h1 _ IH Hins | ]; [apply wf_NewTSDB | | assumption].
  destruct (InsertPoints_total points t h IH) as (t2 & h2 & Hins2 & Hwf).
  rewrite Hins in Hins2. inversion Hins2; subst. exact Hwf.
Qed.

(** What [getShardGroup] returns without a pool: an active group that
    contains the instant and leaves the engine as it is, or a new group
    with a shard of its own, added at the end. *)
Lemma getShardGroup_cases (t : tsdb) (h : objects) (ti : Z) sg t1 h1 :
  wf t h -> getShardGroup t h ti = (sg, t1, h1) ->
  (In sg (sgs t) /\ contains sg ti = true /\ t1 = t /\ h1 = h) \/
  (Forall (fun g => contains g ti = false) (sgs t) /\
   sg = initTime {| max := 0; min := 0; shard := length h |} ti _shardGroupDuration /\
   sgs t1 = sgs t ++ [sg] /\ emptySgs t1 = [] /\ h1 = h ++ [NewShard]).
Proof.
  intros [Hrefs He] Hg. rewrite getShardGroup_no_pool in Hg by assumption.
  unfold getShardGroup_fresh in Hg.
  destruct (List.find _ _) as [g|] eqn:Hfind.
  - left. inversion Hg; subst. apply List.find_some in Hfind as [Hin Hc]. auto.
  - right. unfold newShardGroup in Hg. inversion Hg; subst. cbn.
    split; [|auto]. apply Forall_forall. intros g Hin.
    apply (List.find_none _ _ Hfind), list_elem_of_In, Hin.
Qed.







(** A group that lies inside the query interval, bounds excluded on the
    left and included on the right, is passed over by [have]. *)
Lemma have_false_when_covered (g : shardGroup) (qmin qmax : Z) :
  qmin < min g -> max g <= qmax -> have g qmin qmax = false.
Proof.
  intros Hlo Hhi. unfold have, GoTime.Before, GoTime.After, GoTime.Equal.
  zbool; cbn; try reflexivity; lia.
Qed.

(** Whatever the shard does: one point at 00:01:30 is stored, and the
    query from 00:00:30 to 00:02:00 looks into no group. *)
Lemma Query_passes_over_covered_group (p : Point T) (tag : Tag) (retentionDuration : Z) :
  Time p = GoTime.Unix 90 0 ->
  exists t h,
    InsertPoints (NewTSDB retentionDuration) [] [p] = Some (t, h) /\
    h = [Shard_Insert p NewShard] /\
    Query t h tag (GoTime.Unix 30 0) (GoTime.Unix 120 0) = Some [].
Proof.
  intros Ht. cbn. unfold getShardGroup. cbn. rewrite Ht. cbn.
  do 2 eexists. split; [reflexivity|]. split; [reflexivity|].
  unfold Query. cbn.
  rewrite have_false_when_covered; [reflexivity | vm_compute; reflexivity | vm_compute; discriminate].
Qed.

End Generic.

End engine_props.

Module windowed.
Import memtsdb window_props engine_props modelled samples.
Local Open Scope Z_scope.

(** The scenarios of the tests, on the engine: points at seconds 1, 2,
    3 and 10 tagged [a=b], queried from second 2 to second 3; and the
    window of second 1. *)
Example scenario_query_seconds_2_to_3 :
  exists t h,
    InsertPoints (NewTSDB GoTime.Minute) []
      [pointAt 1 1; pointAt 2 2; pointAt 3 3; pointAt 10 10] = Some (t, h) /\
    Query t h ab (GoTime.Unix 2 0) (GoTime.Unix 3 0) = Some [pointAt 2 2; pointAt 3 3].
Proof. eexists _, _. split; vm_compute; reflexivity. Qed.

Example scenario_window_of_second_1 :
  let g := initTime {| max := 0; min := 0; shard := 0%nat |} (GoTime.Unix 1 0)
             _shardGroupDuration in
  min g = GoTime.Unix 0 0 /\ max g = GoTime.Unix 60 0 /\
  contains g (GoTime.Unix 1 0) = true.
Proof. vm_compute. repeat split. Qed.

(** C1.  [Query] does not return every inserted point of the tag within
    the interval: the point tagged [a=b] at 00:01:30 is stored in the
    group of 00:01:00 to 00:02:00, and the query for [a=b] from 00:00:30
    to 00:02:00, which covers that group, returns nothing. *)
Theorem Query_misses_point_of_covered_group :
  let p := pointAt 90 1 in
  let qmin := GoTime.Unix 30 0 in
  let qmax := GoTime.Unix 120 0 in
  In ab (Tags p) /\ qmin <= Time p <= qmax /\
  exists t h,
    InsertPoints (NewTSDB GoTime.Minute) [] [p] = Some (t, h) /\
    h = [memShard_Insert p NewMemShard] /\
    memShard_Query ab qmin qmax (memShard_Insert p NewMemShard) = [p] /\
    Query t h ab qmin qmax = Some [].
Proof.
  cbv zeta. split; [left; reflexivity|]. split; [vm_compute; split; discriminate|].
  destruct (Query_passes_over_covered_group (pointAt 90 1) ab GoTime.Minute eq_refl)
    as (t & h & Hins & Hh & Hq).
  exists t, h. split; [exact Hins|]. split; [exact Hh|].
  split; [vm_compute; reflexivity | exact Hq].
Qed.

(** C2.  The window computed by [initTime] has the width of the bucket
    but does not hold every instant it is computed for: for the instant
    one minute after the Unix epoch and the bucket of one minute, the
    window ends at that instant, so the instant lies outside and
    [contains] rejects it. *)
Theorem initTime_excludes_aligned_instant :
  let t := GoTime.Unix 60 0 in
  let g := initTime {| max := 0; min := 0; shard := 0%nat |} t _shardGroupDuration in
  0 < _shardGroupDuration /\
  max g - min g = _shardGroupDuration /\
  min g = GoTime.Unix 0 0 /\ max g = t /\
  ~ (min g <= t < max g) /\
  contains g t = false.
Proof.
  cbv zeta.
  assert (Hg : initTime {| max := 0; min := 0; shard := 0%nat |} (GoTime.Unix 60 0)
                 _shardGroupDuration
               = {| max := GoTime.Unix 60 0; min := GoTime.Unix 0 0; shard := 0%nat |})
    by (vm_compute; reflexivity).
  rewrite Hg. cbn [max min].
  split; [reflexivity|]. split; [vm_compute; reflexivity|].
  split; [reflexivity|]. split; [reflexivity|].
  split; [lia | vm_compute; reflexivity].
Qed.

(** C3.  Active groups are not always disjoint: two points at the
    instant one minute after the Unix epoch leave, in a reachable engine,
    two active groups with different shards and the same window, so the
    active list is not pairwise disjoint, and the instant 00:00:30 lies
    in both groups. *)
Theorem InsertPoints_duplicates_window :
  exists t h g1 g2,
    InsertPoints (NewTSDB GoTime.Minute) [] [pointAt 60 1; pointAt 60 2] = Some (t, h) /\
    reachable t h /\
    sgs t = [g1; g2] /\ shard g1 <> shard g2 /\
    min g1 = min g2 /\ max g1 = max g2 /\
    ~ disjoint g1 g2 /\ ~ pairwise_disjoint (sgs t) /\
    contains g1 (GoTime.Unix 30 0) = true /\ contains g2 (GoTime.Unix 30 0) = true.
Proof.
  pose (g1 := {| max := GoTime.Unix 60 0; min := GoTime.Unix 0 0; shard := 0%nat |}).
  pose (g2 := {| max := GoTime.Unix 60 0; min := GoTime.Unix 0 0; shard := 1%nat |}).
  assert (Hins : InsertPoints (NewTSDB GoTime.Minute) [] [pointAt 60 1; pointAt 60 2]
                 = Some ({| rd := GoTime.Minute; sgs := [g1; g2]; emptySgs := [] |},
                         [memShard_Insert (pointAt 60 1) NewMemShard;
                          memShard_Insert (pointAt 60 2) NewMemShard]))
    by (vm_compute; reflexivity).
  assert (Hmeet : ~ disjoint g1 g2).
  { intros Hd. apply (Hd (GoTime.Unix 30 0)). vm_compute. repeat split; discriminate. }
  eexists _, _, g1, g2. split; [exact Hins|].
  split; [exact (reach_InsertPoints _ _ _ _ _ (reach_NewTSDB GoTime.Minute) Hins)|].
  split; [reflexivity|]. split; [cbn; lia|].
  split; [reflexivity|]. split; [reflexivity|].
  split; [exact Hmeet|]. split.
  - intros Hpd. apply Hmeet. apply (Hpd 0%nat 1%nat); [lia | reflexivity | reflexivity].
  - split; vm_compute; reflexivity.
Qed.

(** C4.  [have] answers [true] exactly when the query's [min] lies
    strictly inside the window, or the query's [max] lies strictly inside
    the window, or the query's [min] is the window's [min].  This is not
    interval intersection: a window strictly inside the query interval
    meets it and is answered [false]. *)
Theorem have_rule :
  (forall (g : shardGroup) (qmin qmax : Z),
     have g qmin qmax = true <->
     (min g < qmin < max g) \/ (min g < qmax < max g) \/ qmin = min g) /\
  (exists (g : shardGroup) (qmin qmax t : Z),
     (min g <= t < max g) /\ (qmin <= t < qmax) /\ have g qmin qmax = false).
Proof.
  split.
  - intros g qmin qmax. unfold have, GoTime.Before, GoTime.After, GoTime.Equal.
    zbool; cbn; split; intros; try discriminate; try reflexivity; lia.
  - exists {| max := 20; min := 10; shard := 0%nat |}, 5, 30, 15.
    split; [cbn; lia|]. split; [lia|]. reflexivity.
Qed.

(** C9.  In every engine state reached from a new engine by calls of
    [InsertPoints] and [Query], the pool [emptySgs] is empty; so
    [getShardGroup] does what it does with the pooled branch removed, and
    the group it returns is an active one or a new one whose shard is
    newly allocated and belongs to no active group. *)
Theorem pool_always_empty {T : Type} `{Shard T} (t : tsdb) (h : objects) :
  reachable t h ->
  emptySgs t = [] /\
  (forall ti : Z, getShardGroup t h ti = getShardGroup_fresh t h ti) /\
  (forall (ti : Z) sg t1 h1,
     getShardGroup t h ti = (sg, t1, h1) ->
     In sg (sgs t) \/
     (shard sg = length h /\ h1 = h ++ [NewShard] /\
      Forall (fun g => shard g <> shard sg) (sgs t))).
Proof.
  intros Hr. pose proof (reachable_wf t h Hr) as Hwf. destruct Hwf as [Hrefs He].
  split; [exact He|]. split; [intros ti; apply getShardGroup_no_pool, He|].
  intros ti sg t1 h1 Hg.
  destruct (getShardGroup_cases t h ti sg t1 h1 (conj Hrefs He) Hg)
    as [(Hin & _) | (_ & Hsg & _ & _ & Hh)]; [left; exact Hin | right].
  assert (Hs : shard sg = length h) by (rewrite Hsg; apply initTime_shard).
  split; [exact Hs|]. split; [exact Hh|].
  eapply Forall_impl; [exact Hrefs|]. cbn. intros g Hlt. rewrite Hs. lia.
Qed.

Lemma pool_always_empty_witness :
  exists t h,
    InsertPoints (NewTSDB GoTime.Minute) [] [pointAt 90 1; pointAt 150 2] = Some (t, h) /\
    length (sgs t) = 2%nat /\
    reachable t h /\
    emptySgs t = [] /\
    (forall ti : Z, getShardGroup t h ti = getShardGroup_fresh t h ti) /\
    (forall (ti : Z) sg t1 h1,
       getShardGroup t h ti = (sg, t1, h1) ->
       In sg (sgs t) \/
       (shard sg = length h /\ h1 = h ++ [NewShard] /\
        Forall (fun g => shard g <> shard sg) (sgs t))).
Proof.
  pose (t := {| rd := GoTime.Minute;
                sgs := [ {| max := GoTime.Unix 120 0; min := GoTime.Unix 60 0;
                            shard := 0%nat |};
                         {| max := GoTime.Unix 180 0; min := GoTime.Unix 120 0;
                            shard := 1%nat |} ];
                emptySgs := [] |}).
  pose (h := [memShard_Insert (pointAt 90 1) NewMemShard;
              memShard_Insert (pointAt 150 2) NewMemShard]).
  assert (Hins : InsertPoints (NewTSDB GoTime.Minute) [] [pointAt 90 1; pointAt 150 2]
                 = Some (t, h))
    by (vm_compute; reflexivity).
  exists t, h. split; [exact Hins|]. split; [reflexivity|].
  split; [exact (reach_InsertPoints _ _ _ _ _ (reach_NewTSDB GoTime.Minute) Hins)|].
  exact (pool_always_empty t h (reach_InsertPoints _ _ _ _ _ (reach_NewTSDB GoTime.Minute) Hins)).
Defined.

End windowed.

(** ** Entries, partitions and the shard *)

Module shard_props.
Import shard.
Local Open Scope Z_scope.

Section Generic.
Context `{Runtime} {T : Type}.

(** The loop of [entry.removeBefore]: while the appends fit the
    capacity, it keeps what passes the test, in order, and the capacity
    stays. *)
Lemma sweep_loop (unixNano : Z) (l : list (Value T)) (acc : slice (Value T)) :
  (length (elems acc) + length l <= cap acc)%nat ->
  let r := fold_left
             (fun acc v => if unixNano <=? UnixNano v then append acc [v] else acc)
             l acc in
  elems r = elems acc ++ List.filter (fun v => unixNano <=? UnixNano v) l /\
  cap r = cap acc.
Proof.
  revert acc. induction l as [|v l IH]; intros acc Hfit; cbn in *.
  - rewrite app_nil_r. split; reflexivity.
  - destruct (unixNano <=? UnixNano v).
    + assert (Happ : append acc [v] = {| elems := elems acc ++ [v]; cap := cap acc |}).
      { unfold append. cbn.
        destruct (Nat.leb_spec (length (elems acc) + 1) (cap acc)); [reflexivity | lia]. }
      rewrite Happ.
      destruct (IH {| elems := elems acc ++ [v]; cap := cap acc |}) as [He Hc].
      { cbn. rewrite length_app. cbn. lia. }
      cbn in He, Hc. rewrite He, Hc. rewrite <- app_assoc. split; reflexivity.
    + apply IH. lia.
Qed.

Lemma entry_removeBefore_elems (e : entry T) (unixNano : Z) :
  elems (values (entry_removeBefore e unixNano)) =
  List.filter (fun v => unixNano <=? UnixNano v) (elems (values e)).
Proof.
  unfold entry_removeBefore. cbn.
  destruct (sweep_loop unixNano (elems (values e)) (make (length (elems (values e)))))
    as [He _]; [cbn; lia|].
  exact He.
Qed.

(** After a sweep the capacity is the number of values before it. *)
Lemma entry_removeBefore_cap (e : entry T) (unixNano : Z) :
  cap (values (entry_removeBefore e unixNano)) = length (elems (values e)).
Proof.
  unfold entry_removeBefore. cbn.
  destruct (sweep_loop unixNano (elems (values e)) (make (length (elems (values e)))))
    as [_ Hc]; [cbn; lia|].
  exact Hc.
Qed.

Lemma between_loop (lo hi : Z) (l acc : list (Value T)) :
  fold_left
    (fun acc v =>
       if (lo <=? UnixNano v) && (UnixNano v <=? hi) then acc ++ [v] else acc)
    l acc
  = acc ++ List.filter (fun v => (lo <=? UnixNano v) && (UnixNano v <=? hi)) l.
Proof.
  revert acc. induction l as [|v l IH]; intros acc; cbn.
  - rewrite app_nil_r. reflexivity.
  - destruct ((lo <=? UnixNano v) && (UnixNano v <=? hi)).
    + rewrite IH, <- app_assoc. reflexivity.
    + apply IH.
Qed.

Lemma entry_valuesBetween_filter (e : entry T) (lo hi : Z) :
  entry_valuesBetween e lo hi =
  List.filter (fun v => (lo <=? UnixNano v) && (UnixNano v <=? hi)) (elems (values e)).
Proof. unfold entry_valuesBetween. apply between_loop. Qed.

Lemma filter_twice {A : Type} (f : A -> bool) (l : list A) :
  List.filter f (List.filter f l) = List.filter f l.
Proof.
  induction l as [|x l IH]; cbn; [reflexivity|].
  destruct (f x) eqn:Hx; cbn; rewrite ?Hx, IH; reflexivity.
Qed.

(** What a partition holds under a key after a sweep. *)
Lemma partition_removeBefore_lookup (p : partition T) (unixNano : Z) (key : string) :
  store (partition_removeBefore p unixNano) !! key =
  match store p !! key with
  | None => None
  | Some e =>
      if (length (elems (values e)) =? 0)%nat then None
      else Some (entry_removeBefore e unixNano)
  end.
Proof.
  unfold partition_removeBefore. cbn [store]. rewrite lookup_omap.
  destruct (store p !! key) as [e|]; cbn [mbind option_bind]; [|reflexivity].
  rewrite entry_removeBefore_cap. reflexivity.
Qed.

Lemma to_int64_small (z : Z) : 0 <= z < 2 ^ 63 -> GoTime.to_int64 z = z.
Proof.
  intros Hz. unfold GoTime.to_int64.
  assert (H63 : 2 ^ 63 = 9223372036854775808) by reflexivity.
  assert (H64 : 2 ^ 64 = 18446744073709551616) by reflexivity.
  rewrite H63, H64 in *. rewrite Z.mod_small; lia.
Qed.

(** In a ring of sixteen partitions every key has its slot. *)
Lemma getPartitions_sixteen (s : shard T) (key : string) :
  length (partitions s) = _partitionNum ->
  exists p,
    getPartitions s key = Some (N.to_nat (Sum64 key mod 16), p) /\
    partitions s !! N.to_nat (Sum64 key mod 16) = Some p /\
    (N.to_nat (Sum64 key mod 16) < 16)%nat.
Proof.
  intros Hlen. unfold getPartitions. rewrite Hlen.
  change (N.of_nat _partitionNum) with 16%N. change (Z.of_nat _partitionNum) with 16.
  change (16 =? 0)%N with false. cbv iota.
  pose proof (N.mod_upper_bound (Sum64 key) 16 ltac:(discriminate)) as Hm.
  remember (Sum64 key mod 16)%N as m.
  assert (H63 : 2 ^ 63 = 9223372036854775808) by reflexivity.
  rewrite to_int64_small by lia.
  destruct (Z.ltb_spec (Z.of_N m) 0); [lia|].
  destruct (Z.leb_spec 16 (Z.of_N m)); [lia|]. cbn [orb].
  replace (Z.to_nat (Z.of_N m)) with (N.to_nat m) by lia.
  assert (Hlt : (N.to_nat m < length (partitions s))%nat)
    by (rewrite Hlen; unfold _partitionNum; lia).
  destruct (lookup_lt_is_Some_2 _ _ Hlt) as [p Hp]. rewrite Hp.
  exists p. split; [reflexivity|]. split; [reflexivity | lia].
Qed.

Lemma newShard_length : length (partitions (newShard (T := T))) = _partitionNum.
Proof. reflexivity. Qed.

(** On a ring of sixteen partitions [writeMulti] returns, and the ring
    keeps its size. *)
Lemma writeMulti_sixteen (s : shard T) (batch : gmap string (list (Value T))) :
  length (partitions s) = _partitionNum ->
  exists s1, writeMulti s batch = Some s1 /\ length (partitions s1) = _partitionNum.
Proof.
  intros Hlen. unfold writeMulti.
  apply (map_fold_weak_ind
           (fun r (_ : gmap string (list (Value T))) =>
              exists s1, r = Some s1 /\ length (partitions s1) = _partitionNum)).
  - eauto.
  - intros k v m r _ (s1 & -> & Hlen1).
    destruct (getPartitions_sixteen s1 k Hlen1) as (p & Hg & _). rewrite Hg.
    eexists. split; [reflexivity|]. cbn. rewrite length_insert. exact Hlen1.
Qed.

Lemma shard_reachable_length (s : shard T) :
  shard_reachable s -> length (partitions s) = _partitionNum.
Proof.
  induction 1 as [| s batch s1 _ IH Hw | s unixNano _ IH].
  - apply newShard_length.
  - destruct (writeMulti_sixteen s batch IH) as (s2 & Hw2 & Hlen).
    rewrite Hw in Hw2. inversion Hw2; subst. exact Hlen.
  - cbn. rewrite length_map. exact IH.
Qed.

End Generic.

End shard_props.

Module storage.
Import modelled shard shard_props.
Local Open Scope Z_scope.

(** C5.  [partition.removeBefore] is idempotent as far as
    [valuesBetween] can tell: under every key and for every pair of
    bounds, sweeping twice with one threshold leaves what sweeping once
    leaves. *)
Theorem removeBefore_idempotent `{Runtime} {T : Type}
  (p : partition T) (unixNano : Z) (key : string) (lo hi : Z) :
  partition_valuesBetween
    (partition_removeBefore (partition_removeBefore p unixNano) unixNano) key lo hi
  = partition_valuesBetween (partition_removeBefore p unixNano) key lo hi.
Proof.
  unfold partition_valuesBetween. rewrite !partition_removeBefore_lookup.
  destruct (store p !! key) as [e|]; [|reflexivity].
  destruct (Nat.eqb_spec (length (elems (values e))) 0) as [|_]; [reflexivity|].
  rewrite entry_valuesBetween_filter.
  destruct (Nat.eqb_spec (length (elems (values (entry_removeBefore e unixNano)))) 0)
    as [Hz|_].
  - apply length_zero_iff_nil in Hz. rewrite Hz. reflexivity.
  - rewrite entry_valuesBetween_filter, (entry_removeBefore_elems (entry_removeBefore _ _)).
    rewrite entry_removeBefore_elems, filter_twice. reflexivity.
Qed.

(** C6.  After [partition.removeBefore], under every key: an entry that
    was there and is swept holds its former values with timestamp at
    least the threshold, in their order; its capacity is zero exactly
    when it held no value before the sweep; with capacity zero the key is
    dropped and [valuesBetween] of it is empty, otherwise the key maps to
    the swept entry; a key that was absent stays absent. *)
Theorem removeBefore_keeps_and_drops `{Runtime} {T : Type}
  (p : partition T) (threshold : Z) (key : string) :
  let p1 := partition_removeBefore p threshold in
  match store p !! key with
  | None => store p1 !! key = None
  | Some e =>
      let e1 := entry_removeBefore e threshold in
      elems (values e1) =
        List.filter (fun v => threshold <=? UnixNano v) (elems (values e)) /\
      (cap (values e1) = 0%nat <-> elems (values e) = []) /\
      if (cap (values e1) =? 0)%nat
      then store p1 !! key = None /\
           forall lo hi : Z, partition_valuesBetween p1 key lo hi = []
      else store p1 !! key = Some e1
  end.
Proof.
  cbv zeta. unfold partition_valuesBetween. rewrite partition_removeBefore_lookup.
  destruct (store p !! key) as [e|]; [|reflexivity].
  rewrite entry_removeBefore_elems, entry_removeBefore_cap.
  split; [reflexivity|]. split; [apply length_zero_iff_nil|].
  destruct (length (elems (values e)) =? 0)%nat; [split; reflexivity | reflexivity].
Qed.

(** The maps themselves differ after one sweep and after two: an entry
    emptied by the first sweep keeps its key until the second. *)
Example second_sweep_drops_emptied_key :
  let p : partition Z :=
    partition_write newPartition "a=b" [ {| UnixNano := 1; V := 10 |};
                                         {| UnixNano := 2; V := 20 |} ] in
  store (partition_removeBefore p 5) !! "a=b" = Some {| values := make 2 |} /\
  store (partition_removeBefore (partition_removeBefore p 5) 5) !! "a=b" = None /\
  partition_valuesBetween (partition_removeBefore p 5) "a=b" 0 9 = [] /\
  partition_valuesBetween (partition_removeBefore p 2) "a=b" 0 9
    = [ {| UnixNano := 2; V := 20 |} ].
Proof. vm_compute. repeat split. Qed.

(** C10.  Every shard a running engine can hold has sixteen partitions,
    and for every key [getPartitions] returns the partition in slot
    [hash mod 16], a slot below sixteen: the modulus is not zero and the
    index is in range. *)
Theorem getPartitions_safe `{Runtime} {T : Type} (s : shard T) (key : string) :
  shard_reachable s ->
  length (partitions s) = 16%nat /\
  exists p,
    getPartitions s key = Some (N.to_nat (Sum64 key mod 16), p) /\
    partitions s !! N.to_nat (Sum64 key mod 16) = Some p /\
    (N.to_nat (Sum64 key mod 16) < 16)%nat.
Proof.
  intros Hr. pose proof (shard_reachable_length s Hr) as Hlen.
  split; [exact Hlen|]. apply getPartitions_sixteen, Hlen.
Qed.

Lemma getPartitions_safe_witness :
  shard_reachable (newShard (T := Z)) /\
  length (partitions (newShard (T := Z))) = 16%nat /\
  exists p,
    getPartitions (newShard (T := Z)) "host=A,region=SH"
      = Some (N.to_nat (Sum64 "host=A,region=SH" mod 16), p) /\
    partitions (newShard (T := Z)) !! N.to_nat (Sum64 "host=A,region=SH" mod 16) = Some p /\
    (N.to_nat (Sum64 "host=A,region=SH" mod 16) < 16)%nat.
Proof.
  split; [apply reach_new|].
  apply (getPartitions_safe (newShard (T := Z)) "host=A,region=SH"). apply reach_new.
Defined.

End storage.

(** ** The generic engine *)

Module tsdb_props.
Import tsdb.
Local Open Scope Z_scope.

Section Generic.
Context `{shard.Runtime} `{Collaborators} {T : Type}.

(** A batch with a point of empty series key makes the loop return the
    missing-tag error, whatever the maps hold so far. *)
Lemma groupPoints_missing_tag (points : list (Point T)) :
  (exists p, In p points /\ String.length (Series (tags p)) = 0%nat) ->
  forall seriesTags values, groupPoints points seriesTags values = inl ErrPointMissingTag.
Proof.
  induction points as [|point rest IH]; intros (p & Hin & Hp) seriesTags values.
  - destruct Hin.
  - cbn [groupPoints]. cbv zeta.
    destruct (Nat.eqb_spec (String.length (Series (tags point))) 0) as [|Hne];
      [reflexivity|].
    assert (Hrest : exists q, In q rest /\ String.length (Series (tags q)) = 0%nat).
    { destruct Hin as [->|Hin]; [contradiction | eauto]. }
    destruct (seriesTags !! Series (tags point)); apply IH, Hrest.
Qed.

(** On a closed engine [WritePoints] changes nothing. *)
Lemma WritePoints_closed (db : TSDB T) (points : list (Point T)) :
  isClosed db = true -> WritePoints db points = Some (Some ErrDBClosed, db).
Proof. intros Hc. unfold WritePoints. rewrite Hc. reflexivity. Qed.

Lemma Stop_closes (db db1 : TSDB T) :
  Stop db = Some db1 ->
  isClosed db1 = true /\ gcRunning db1 = false /\ idx db1 = idx db /\ store db1 = store db.
Proof.
  unfold Stop. destruct (gcRunning db); [|discriminate].
  intros Hs. inversion Hs; subst. cbn. repeat split.
Qed.

(** A closed engine whose [gc] has returned does not move. *)
Lemma step_closed (db db1 : TSDB T) :
  isClosed db = true -> gcRunning db = false -> step db db1 -> db1 = db.
Proof.
  intros Hc Hg Hstep. destruct Hstep as [db points err db1 Hw | db db1 Hs | db now db1 Ht].
  - rewrite WritePoints_closed in Hw by assumption. inversion Hw; reflexivity.
  - unfold Stop in Hs. rewrite Hg in Hs. discriminate.
  - unfold gcTick in Ht. rewrite Hg in Ht. discriminate.
Qed.

Lemma steps_closed (db db2 : TSDB T) :
  isClosed db = true -> gcRunning db = false -> steps db db2 -> db2 = db.
Proof.
  intros Hc Hg Hsteps. induction Hsteps as [|db db1 db2 _ IH Hstep]; [reflexivity|].
  specialize (IH Hc Hg). subst db1. apply (step_closed db db2 Hc Hg Hstep).
Qed.

End Generic.

End tsdb_props.

Module generic.
Import modelled samples tsdb tsdb_props.
Local Open Scope Z_scope.

(** C7, as the code has it.  If a point of the batch has an empty series
    key, [WritePoints] returns an error and the engine, with its index
    and its store, is as before: the missing-tag error on an engine that
    is not closed, the closed-engine error on a closed one. *)
Theorem WritePoints_missing_tag `{shard.Runtime} `{Collaborators} {T : Type}
  (db : TSDB T) (points : list (Point T)) :
  (exists p, In p points /\ String.length (Series (tags p)) = 0%nat) ->
  WritePoints db points
  = Some (Some (if isClosed db then ErrDBClosed else ErrPointMissingTag), db).
Proof.
  intros Hbad. unfold WritePoints. destruct (isClosed db); [reflexivity|].
  rewrite (groupPoints_missing_tag points Hbad). reflexivity.
Qed.

Lemma WritePoints_missing_tag_witness :
  New GoTime.Minute = Some newEngine /\
  (exists p, In p [taggedAt 1 1; untaggedAt 2 2] /\
             String.length (Series (tags p)) = 0%nat) /\
  isClosed newEngine = false /\
  WritePoints newEngine [taggedAt 1 1; untaggedAt 2 2]
  = Some (Some ErrPointMissingTag, newEngine).
Proof.
  assert (Hbad : exists p, In p [taggedAt 1 1; untaggedAt 2 2] /\
                           String.length (Series (tags p)) = 0%nat).
  { exists (untaggedAt 2 2). split; [right; left; reflexivity | reflexivity]. }
  split; [reflexivity|]. split; [exact Hbad|]. split; [reflexivity|].
  exact (WritePoints_missing_tag newEngine [taggedAt 1 1; untaggedAt 2 2] Hbad).
Defined.

(** C7, as stated, fails on a stopped engine: the batch of one point
    without tags gets the closed-engine error, not the missing-tag
    error. *)
Lemma WritePoints_missing_tag_on_closed_engine :
  New GoTime.Minute = Some newEngine /\
  Stop newEngine = Some stoppedEngine /\
  (exists p, In p [untaggedAt 1 1] /\ String.length (Series (tags p)) = 0%nat) /\
  WritePoints stoppedEngine [untaggedAt 1 1] = Some (Some ErrDBClosed, stoppedEngine) /\
  ~ (exists db1,
       WritePoints stoppedEngine [untaggedAt 1 1] = Some (Some ErrPointMissingTag, db1)).
Proof.
  split; [reflexivity|]. split; [reflexivity|].
  split; [exists (untaggedAt 1 1); split; [left; reflexivity | reflexivity]|].
  split; [reflexivity|].
  intros [db1 Hw]. rewrite WritePoints_closed in Hw by reflexivity. discriminate.
Qed.

(** C8.  Once [Stop] has returned, whatever happens to the engine
    afterwards, it stays closed, its index and its store are those it
    had when [Stop] returned, and every [WritePoints] returns the
    closed-engine error and the engine unchanged. *)
Theorem WritePoints_after_Stop `{shard.Runtime} `{Collaborators} {T : Type}
  (db db1 db2 : TSDB T) :
  Stop db = Some db1 -> steps db1 db2 ->
  isClosed db2 = true /\
  idx db2 = idx db /\ store db2 = store db /\
  forall points, WritePoints db2 points = Some (Some ErrDBClosed, db2).
Proof.
  intros Hstop Hsteps.
  destruct (Stop_closes db db1 Hstop) as (Hc & Hg & Hidx & Hstore).
  rewrite (steps_closed db1 db2 Hc Hg Hsteps).
  split; [exact Hc|]. split; [exact Hidx|]. split; [exact Hstore|].
  intros points. apply WritePoints_closed, Hc.
Qed.

Lemma WritePoints_after_Stop_witness :
  New GoTime.Minute = Some newEngine /\
  Stop newEngine = Some stoppedEngine /\
  steps stoppedEngine stoppedEngine /\
  isClosed stoppedEngine = true /\
  idx stoppedEngine = idx newEngine /\ store stoppedEngine = store newEngine /\
  forall points, WritePoints stoppedEngine points = Some (Some ErrDBClosed, stoppedEngine).
Proof.
  assert (Hstop : Stop newEngine = Some stoppedEngine) by reflexivity.
  assert (Hsteps : steps stoppedEngine stoppedEngine).
  { apply (steps_next _ stoppedEngine _ (steps_refl _)).
    apply (step_WritePoints stoppedEngine [taggedAt 1 1] (Some ErrDBClosed) stoppedEngine).
    reflexivity. }
  split; [reflexivity|]. split; [exact Hstop|]. split; [exact Hsteps|].
  exact (WritePoints_after_Stop newEngine stoppedEngine stoppedEngine Hstop Hsteps).
Defined.

End generic.

(** ** More on the windowed engine *)

Module engine_more.
Import memtsdb window_props engine_props views.
Local Open Scope Z_scope.

Section Generic.
Context {T : Type} `{Shard T}.

Lemma getShardGroup_rd (t : tsdb) (h : objects) (ti : Z) sg t1 h1 :
  getShardGroup t h ti = (sg, t1, h1) -> rd t1 = rd t.
Proof.
  unfold getShardGroup, newShardGroup.
  destruct (List.find _ _); [intros Hg; inversion Hg; reflexivity|].
  destruct (last (emptySgs t)); intros Hg; inversion Hg; reflexivity.
Qed.

(** Storing into a shard object keeps the engine well formed. *)
Lemma wf_insert (t : tsdb) (h : objects) (i : nat) (s : shard_state) :
  wf t h -> wf t (<[i := s]> h).
Proof.
  intros [Hrefs He]. split; [|exact He].
  eapply Forall_impl; [exact Hrefs|]. cbn. intros g Hg. rewrite length_insert. exact Hg.
Qed.

(** A property kept by [getShardGroup] and by the update of a shard
    object is kept by [InsertPoints]. *)
Lemma InsertPoints_keeps (P : tsdb -> objects -> Prop) :
  (forall t h ti sg t1 h1,
     wf t h -> P t h -> getShardGroup t h ti = (sg, t1, h1) -> P t1 h1) ->
  (forall t h i s, P t h -> P t (<[i := s]> h)) ->
  forall points t h t1 h1,
    wf t h -> P t h -> InsertPoints t h points = Some (t1, h1) -> P t1 h1.
Proof.
  intros Hget Hput. induction points as [|point rest IH]; intros t h t1 h1 Hwf HP Hins.
  - cbn in Hins. inversion Hins; subst. exact HP.
  - rewrite InsertPoints_cons in Hins.
    destruct (getShardGroup t h (Time point)) as [[sg t2] h2] eqn:Hg.
    destruct (getShardGroup_wf _ _ _ _ _ _ Hwf Hg) as [Hwf2 _].
    destruct (h2 !! shard sg) as [s0|]; [|discriminate].
    apply (IH t2 (<[shard sg := Shard_Insert point s0]> h2)); [| |exact Hins].
    + apply wf_insert, Hwf2.
    + apply Hput. exact (Hget _ _ _ _ _ _ Hwf HP Hg).
Qed.

Lemma getShardGroup_linked (t : tsdb) (h : objects) (ti : Z) sg t1 h1 :
  wf t h -> linked t h -> getShardGroup t h ti = (sg, t1, h1) -> linked t1 h1.
Proof.
  intros Hwf [Hlen Hpos] Hg.
  destruct (getShardGroup_cases _ _ _ _ _ _ Hwf Hg)
    as [(_ & _ & -> & ->) | (_ & Hsg & Hs & _ & ->)]; [split; assumption|].
  split.
  - rewrite Hs, !length_app. cbn. lia.
  - intros i g Hi. rewrite Hs in Hi.
    apply lookup_app_Some in Hi as [Hi|[Hge Hi]]; [exact (Hpos i g Hi)|].
    apply list_lookup_singleton_Some in Hi as [Hi0 <-].
    rewrite Hsg, initTime_shard. cbn. lia.
Qed.

Lemma reachable_linked (t : tsdb) (h : objects) : reachable t h -> linked t h.
Proof.
  induction 1 as [rd0 | t h points t1 h1 Hr IH Hins | ]; [| | assumption].
  - split; [reflexivity|]. intros i g Hi. cbn in Hi. rewrite lookup_nil in Hi. discriminate.
  - apply (InsertPoints_keeps linked) with (points := points) (t := t) (h := h);
      [ intros; eapply getShardGroup_linked; eassumption
      | | apply reachable_wf, Hr | exact IH | exact Hins ].
    intros t0 h0 i s [Hlen Hpos]. split; [rewrite length_insert; exact Hlen | exact Hpos].
Qed.

Lemma InsertPoints_app (ps qs : list (Point T)) (t : tsdb) (h : objects) :
  InsertPoints t h (ps ++ qs) =
  match InsertPoints t h ps with
  | Some (t1, h1) => InsertPoints t1 h1 qs
  | None => None
  end.
Proof.
  revert t h. induction ps as [|point rest IH]; intros t h; [reflexivity|].
  rewrite <- app_comm_cons, !InsertPoints_cons.
  destruct (getShardGroup t h (Time point)) as [[sg t2] h2].
  destruct (h2 !! shard sg); [apply IH | reflexivity].
Qed.

(** What [InsertPoints] does to the active list and the object store:
    groups and objects are added at the end, one each, at most one per
    point. *)
Lemma InsertPoints_grows (points : list (Point T)) (t : tsdb) (h : objects) t1 h1 :
  wf t h -> InsertPoints t h points = Some (t1, h1) ->
  exists new : list shardGroup,
    sgs t1 = sgs t ++ new /\ (length new <= length points)%nat /\
    length h1 = (length h + length new)%nat /\ rd t1 = rd t.
Proof.
  revert t h. induction points as [|point rest IH]; intros t h Hwf Hins.
  - cbn in Hins. inversion Hins; subst. exists []. rewrite app_nil_r. cbn.
    repeat split; lia.
  - rewrite InsertPoints_cons in Hins.
    destruct (getShardGroup t h (Time point)) as [[sg t2] h2] eqn:Hg.
    destruct (getShardGroup_wf _ _ _ _ _ _ Hwf Hg) as [Hwf2 _].
    pose proof (getShardGroup_rd _ _ _ _ _ _ Hg) as Hrd.
    destruct (h2 !! shard sg) as [s0|]; [|discriminate].
    destruct (IH t2 _ (wf_insert _ _ (shard sg) (Shard_Insert point s0) Hwf2) Hins)
      as (new & Hs & Hn & Hl & Hrd2).
    rewrite length_insert in Hl.
    destruct (getShardGroup_cases _ _ _ _ _ _ Hwf Hg)
      as [(_ & _ & -> & ->) | (_ & _ & Hs2 & _ & ->)].
    + exists new. cbn. repeat split; [exact Hs | lia | exact Hl | exact Hrd2].
    + exists (sg :: new). rewrite Hs, Hs2, <- app_assoc. cbn.
      rewrite length_app in Hl. cbn in Hl.
      repeat split; [lia | lia | congruence].
Qed.


(** What [Query] collects: for the groups [have] accepts, in their
    order, what their shards return. *)
Lemma Query_loop_collects (groups : list shardGroup) (h : objects) tag qmin qmax ps r :
  Query_loop groups h tag qmin qmax ps = Some r ->
  r = ps ++ List.flat_map
             (fun sg => match h !! shard sg with
                        | Some s => Shard_Query tag qmin qmax s
                        | None => []
                        end)
             (List.filter (fun sg => have sg qmin qmax) groups).
Proof.
  revert ps. induction groups as [|sg rest IH]; intros ps Hq.
  - cbn in Hq. inversion Hq. cbn. rewrite app_nil_r. reflexivity.
  - change (Query_loop (sg :: rest) h tag qmin qmax ps) with
      (if negb (have sg qmin qmax) then Query_loop rest h tag qmin qmax ps
       else match h !! shard sg with
            | None => None
            | Some s => Query_loop rest h tag qmin qmax (ps ++ Shard_Query tag qmin qmax s)
            end) in Hq.
    cbn [List.filter]. destruct (have sg qmin qmax); cbn [negb] in Hq.
    + destruct (h !! shard sg) as [s|] eqn:Hs; [|discriminate].
      rewrite (IH _ Hq). cbn [List.flat_map]. rewrite Hs, app_assoc. reflexivity.
    + apply IH, Hq.
Qed.


(** [have] accepts only windows that meet the closed query interval. *)
Lemma have_meets (g : shardGroup) (qmin qmax : Z) :
  min g < max g -> qmin <= qmax -> have g qmin qmax = true ->
  exists x : Z, (min g <= x < max g) /\ (qmin <= x <= qmax).
Proof.
  intros Hg Hq Hh.
  unfold have, GoTime.Before, GoTime.After, GoTime.Equal in Hh.
  destruct (Z.ltb_spec (min g) qmin), (Z.ltb_spec qmin (max g)); cbn in Hh;
    try (exists qmin; lia);
    destruct (Z.ltb_spec (min g) qmax), (Z.ltb_spec qmax (max g)); cbn in Hh;
    try (exists qmax; lia);
    destruct (Z.eqb_spec (min g) qmin); try discriminate; exists qmin; lia.
Qed.

(** [have] accepts every window that holds the whole query interval. *)
Lemma have_inside (g : shardGroup) (qmin qmax : Z) :
  min g <= qmin -> qmin <= qmax -> qmax < max g -> have g qmin qmax = true.
Proof.
  intros H1 H2 H3. unfold have, GoTime.Before, GoTime.After, GoTime.Equal.
  zbool; cbn; try reflexivity; lia.
Qed.

End Generic.

End engine_more.

Module windowed_more.
Import memtsdb window_props engine_props engine_more views modelled samples more_samples.
Local Open Scope Z_scope.

Lemma twoGroups_reachable : reachable twoGroups twoShards.
Proof.
  apply (reach_InsertPoints (NewTSDB GoTime.Minute) [] [pointAt 90 1; pointAt 150 2]);
    [apply reach_NewTSDB | vm_compute; reflexivity].
Qed.




(** X3.  [have] accepts no window that misses the query: for a window
    that is not empty and bounds in order, an accepted window shares an
    instant with the closed interval from the query's [min] to its
    [max]. *)
Theorem have_accepts_only_meeting_windows (g : shardGroup) (qmin qmax : Z) :
  min g < max g -> qmin <= qmax -> have g qmin qmax = true ->
  exists x : Z, (min g <= x < max g) /\ (qmin <= x <= qmax).
Proof. intros Hg Hq Hh. exact (have_meets g qmin qmax Hg Hq Hh). Qed.

Lemma have_accepts_only_meeting_windows_witness :
  min minuteOne < max minuteOne /\ GoTime.Unix 30 0 <= GoTime.Unix 90 0 /\
  have minuteOne (GoTime.Unix 30 0) (GoTime.Unix 90 0) = true /\
  exists x : Z,
    (min minuteOne <= x < max minuteOne) /\ (GoTime.Unix 30 0 <= x <= GoTime.Unix 90 0).
Proof.
  assert (H1 : min minuteOne < max minuteOne) by reflexivity.
  assert (H2 : GoTime.Unix 30 0 <= GoTime.Unix 90 0) by discriminate.
  assert (H3 : have minuteOne (GoTime.Unix 30 0) (GoTime.Unix 90 0) = true) by reflexivity.
  split; [exact H1|]. split; [exact H2|]. split; [exact H3|].
  exact (have_accepts_only_meeting_windows minuteOne _ _ H1 H2 H3).
Defined.

(** X4.  [have] accepts every window that holds the whole query: when
    the query's [min] is at or after the window's [min], its [max] is
    before the window's [max], and the bounds are in order. *)
Theorem have_accepts_queries_inside (g : shardGroup) (qmin qmax : Z) :
  min g <= qmin -> qmin <= qmax -> qmax < max g -> have g qmin qmax = true.
Proof. intros H1 H2 H3. exact (have_inside g qmin qmax H1 H2 H3). Qed.

Lemma have_accepts_queries_inside_witness :
  min minuteOne <= GoTime.Unix 60 0 /\ GoTime.Unix 60 0 <= GoTime.Unix 90 0 /\
  GoTime.Unix 90 0 < max minuteOne /\
  have minuteOne (GoTime.Unix 60 0) (GoTime.Unix 90 0) = true.
Proof.
  assert (H1 : min minuteOne <= GoTime.Unix 60 0) by discriminate.
  assert (H2 : GoTime.Unix 60 0 <= GoTime.Unix 90 0) by discriminate.
  assert (H3 : GoTime.Unix 90 0 < max minuteOne) by reflexivity.
  split; [exact H1|]. split; [exact H2|]. split; [exact H3|].
  exact (have_accepts_queries_inside minuteOne _ _ H1 H2 H3).
Defined.





(** X7.  On a reachable engine [InsertPoints] returns for every batch:
    it never calls [Insert] through a reference to no shard; and the
    engine it leaves is reachable. *)
Theorem InsertPoints_returns {T : Type} `{Shard T}
  (t : tsdb) (h : objects) (points : list (Point T)) :
  reachable t h ->
  exists t1 h1, InsertPoints t h points = Some (t1, h1) /\ reachable t1 h1.
Proof.
  intros Hr. destruct (InsertPoints_total points t h (reachable_wf t h Hr))
    as (t1 & h1 & Hins & _).
  exists t1, h1. split; [exact Hins|]. exact (reach_InsertPoints _ _ _ _ _ Hr Hins).
Qed.

Lemma InsertPoints_returns_witness :
  reachable twoGroups twoShards /\
  exists t1 h1,
    InsertPoints twoGroups twoShards [pointAt 95 3; pointAt 300 4] = Some (t1, h1) /\
    reachable t1 h1.
Proof.
  split; [exact twoGroups_reachable|].
  exact (InsertPoints_returns twoGroups twoShards [pointAt 95 3; pointAt 300 4]
           twoGroups_reachable).
Defined.

(** X8.  On a reachable engine [Query] returns for every tag and every
    pair of bounds. *)
Theorem Query_returns {T : Type} `{Shard T}
  (t : tsdb) (h : objects) (tag : Tag) (qmin qmax : Z) :
  reachable t h -> exists ps, Query t h tag qmin qmax = Some ps.
Proof. intros Hr. exact (Query_total t h tag qmin qmax (reachable_wf t h Hr)). Qed.

Lemma Query_returns_witness :
  reachable twoGroups twoShards /\
  exists ps, Query twoGroups twoShards ab (GoTime.Unix 60 0) (GoTime.Unix 100 0) = Some ps.
Proof.
  split; [exact twoGroups_reachable|].
  exact (Query_returns twoGroups twoShards ab _ _ twoGroups_reachable).
Defined.

(** X9.  Inserting a batch is inserting its first part and then the
    rest: [InsertPoints] of [ps ++ qs] is [InsertPoints] of [ps] followed
    by [InsertPoints] of [qs], panics included. *)
Theorem InsertPoints_batches_compose {T : Type} `{Shard T}
  (t : tsdb) (h : objects) (ps qs : list (Point T)) :
  InsertPoints t h (ps ++ qs) =
  match InsertPoints t h ps with
  | Some (t1, h1) => InsertPoints t1 h1 qs
  | None => None
  end.
Proof. apply InsertPoints_app. Qed.

(** X10.  [InsertPoints] on a reachable engine only adds: the active
    groups it leaves are the former ones, in their order, followed by new
    ones, at most one per point; one shard object is added per new group;
    the pool stays empty and the retention is kept. *)
Theorem InsertPoints_only_appends {T : Type} `{Shard T}
  (t : tsdb) (h : objects) (points : list (Point T)) t1 h1 :
  reachable t h -> InsertPoints t h points = Some (t1, h1) ->
  exists new : list shardGroup,
    sgs t1 = sgs t ++ new /\ (length new <= length points)%nat /\
    length h1 = (length h + length new)%nat /\
    emptySgs t1 = [] /\ rd t1 = rd t.
Proof.
  intros Hr Hins.
  destruct (InsertPoints_grows points t h t1 h1 (reachable_wf t h Hr) Hins)
    as (new & Hs & Hn & Hl & Hrd).
  exists new. split; [exact Hs|]. split; [exact Hn|]. split; [exact Hl|].
  split; [|exact Hrd].
  exact (proj2 (reachable_wf t1 h1 (reach_InsertPoints _ _ _ _ _ Hr Hins))).
Qed.

Lemma InsertPoints_only_appends_witness :
  reachable twoGroups twoShards /\
  exists t1 h1,
    InsertPoints twoGroups twoShards [pointAt 95 3; pointAt 300 4; pointAt 301 5]
      = Some (t1, h1) /\
    exists new : list shardGroup,
      sgs t1 = sgs twoGroups ++ new /\ (length new <= 3)%nat /\
      length h1 = (length twoShards + length new)%nat /\
      emptySgs t1 = [] /\ rd t1 = rd twoGroups.
Proof.
  split; [exact twoGroups_reachable|].
  destruct (InsertPoints twoGroups twoShards [pointAt 95 3; pointAt 300 4; pointAt 301 5])
    as [[t1 h1]|] eqn:Hins; [|vm_compute in Hins; discriminate].
  exists t1, h1. split; [reflexivity|].
  exact (InsertPoints_only_appends _ _ _ _ _ twoGroups_reachable Hins).
Defined.

(** X11.  In a reachable engine every active group has a shard of its
    own: there are as many shard objects as active groups, every group's
    reference points at an object, and no two groups at different
    positions refer to the same one. *)
Theorem groups_own_their_shards {T : Type} `{Shard T} (t : tsdb) (h : objects) :
  reachable t h ->
  length h = length (sgs t) /\
  (forall g, In g (sgs t) -> is_Some (h !! shard g)) /\
  (forall (i j : nat) g1 g2,
     sgs t !! i = Some g1 -> sgs t !! j = Some g2 -> shard g1 = shard g2 -> i = j).
Proof.
  intros Hr. destruct (reachable_linked t h Hr) as [Hlen Hpos].
  destruct (reachable_wf t h Hr) as [Hrefs _]. rewrite Forall_forall in Hrefs.
  split; [exact Hlen|]. split.
  - intros g Hin. apply lookup_lt_is_Some_2, Hrefs, list_elem_of_In, Hin.
  - intros i j g1 g2 H1 H2 Heq.
    rewrite <- (Hpos i g1 H1), <- (Hpos j g2 H2). exact Heq.
Qed.

Lemma groups_own_their_shards_witness :
  reachable twoGroups twoShards /\
  length twoShards = length (sgs twoGroups) /\
  (forall g, In g (sgs twoGroups) -> is_Some (twoShards !! shard g)) /\
  (forall (i j : nat) g1 g2,
     sgs twoGroups !! i = Some g1 -> sgs twoGroups !! j = Some g2 ->
     shard g1 = shard g2 -> i = j).
Proof.
  split; [exact twoGroups_reachable|].
  exact (groups_own_their_shards twoGroups twoShards twoGroups_reachable).
Defined.







(** X15.  A query that lies inside the window of an active group gets
    all that the shard of that group returns for it: when the query's
    [min] is at or after the window's [min] and its [max] before the
    window's [max], every point of [Shard.Query] is in the result of
    [Query]. *)
Theorem Query_inside_window_is_complete {T : Type} `{Shard T}
  (t : tsdb) (h : objects) (tag : Tag) (qmin qmax : Z) ps sg s (p : Point T) :
  In sg (sgs t) -> min sg <= qmin -> qmin <= qmax -> qmax < max sg ->
  h !! shard sg = Some s ->
  Query t h tag qmin qmax = Some ps ->
  In p (Shard_Query tag qmin qmax s) -> In p ps.
Proof.
  intros Hsg H1 H2 H3 Hs HQ Hp. unfold Query in HQ.
  apply Query_loop_collects in HQ. cbn in HQ. subst ps.
  apply in_flat_map. exists sg. split.
  - apply filter_In. split; [exact Hsg | exact (have_inside sg qmin qmax H1 H2 H3)].
  - rewrite Hs. exact Hp.
Qed.

Lemma Query_inside_window_is_complete_witness :
  In minuteOne (sgs twoGroups) /\ min minuteOne <= GoTime.Unix 60 0 /\
  GoTime.Unix 60 0 <= GoTime.Unix 100 0 /\ GoTime.Unix 100 0 < max minuteOne /\
  twoShards !! shard minuteOne = Some (memShard_Insert (pointAt 90 1) NewMemShard) /\
  Query twoGroups twoShards ab (GoTime.Unix 60 0) (GoTime.Unix 100 0) = Some [pointAt 90 1] /\
  In (pointAt 90 1)
    (Shard_Query ab (GoTime.Unix 60 0) (GoTime.Unix 100 0)
       (memShard_Insert (pointAt 90 1) NewMemShard)) /\
  In (pointAt 90 1) [pointAt 90 1].
Proof.
  assert (Hsg : In minuteOne (sgs twoGroups)) by (left; reflexivity).
  assert (H1 : min minuteOne <= GoTime.Unix 60 0) by discriminate.
  assert (H2 : GoTime.Unix 60 0 <= GoTime.Unix 100 0) by discriminate.
  assert (H3 : GoTime.Unix 100 0 < max minuteOne) by reflexivity.
  assert (Hs : twoShards !! shard minuteOne
               = Some (memShard_Insert (pointAt 90 1) NewMemShard)) by reflexivity.
  assert (HQ : Query twoGroups twoShards ab (GoTime.Unix 60 0) (GoTime.Unix 100 0)
               = Some [pointAt 90 1]) by (vm_compute; reflexivity).
  assert (Hp : In (pointAt 90 1)
                 (Shard_Query ab (GoTime.Unix 60 0) (GoTime.Unix 100 0)
                    (memShard_Insert (pointAt 90 1) NewMemShard)))
    by (vm_compute; left; reflexivity).
  split; [exact Hsg|]. split; [exact H1|]. split; [exact H2|]. split; [exact H3|].
  split; [exact Hs|]. split; [exact HQ|]. split; [exact Hp|].
  exact (Query_inside_window_is_complete twoGroups twoShards ab _ _ _ minuteOne _ _
           Hsg H1 H2 H3 Hs HQ Hp).
Defined.

End windowed_more.

(** ** More on entries, partitions and the shard *)

Module shard_more.
Import shard shard_props views.
Local Open Scope Z_scope.

Section Generic.
Context `{Runtime} {T : Type}.

Lemma append_elems {A : Type} (s : slice A) (xs : list A) :
  elems (append s xs) = elems s ++ xs.
Proof. unfold append. destruct (_ <=? _)%nat; reflexivity. Qed.

Lemma entry_valuesBetween_between (e : entry T) (lo hi : Z) :
  entry_valuesBetween e lo hi = List.filter (between lo hi) (elems (values e)).
Proof. exact (entry_valuesBetween_filter e lo hi). Qed.

Lemma filter_filter_and {A : Type} (f g : A -> bool) (l : list A) :
  List.filter f (List.filter g l) = List.filter (fun x => g x && f x) l.
Proof.
  induction l as [|x l IH]; [reflexivity|]. cbn.
  destruct (g x); cbn; [destruct (f x)|]; rewrite IH; reflexivity.
Qed.

(** Keeping the values from a threshold on and then those between two
    bounds is keeping those between the raised lower bound and the upper
    bound. *)
Lemma filter_sweep_between (unixNano lo hi : Z) (l : list (Value T)) :
  List.filter (between lo hi) (List.filter (fun v => unixNano <=? UnixNano v) l)
  = List.filter (between (Z.max lo unixNano) hi) l.
Proof.
  rewrite filter_filter_and. apply List.filter_ext. intros v. unfold between.
  zbool; cbn; try reflexivity; lia.
Qed.

Lemma partition_write_lookup (p : partition T) (key : string) (vs : list (Value T))
  (key' : string) :
  store (partition_write p key vs) !! key' =
  if decide (key' = key)
  then Some (match store p !! key with
             | Some e => add e vs
             | None => newEntry vs
             end)
  else store p !! key'.
Proof.
  unfold partition_write.
  destruct (store p !! key) as [e|] eqn:He; cbn [store];
    (destruct (decide (key' = key)) as [->|Hne];
     [apply lookup_insert_eq | rewrite lookup_insert_ne by congruence; reflexivity]).
Qed.

(** Reading after a write: the key written reads what it read before
    followed by the written values within the bounds; other keys read as
    before. *)
Lemma partition_write_read (p : partition T) (key : string) (vs : list (Value T))
  (key' : string) (lo hi : Z) :
  partition_valuesBetween (partition_write p key vs) key' lo hi =
  partition_valuesBetween p key' lo hi
  ++ (if decide (key' = key) then List.filter (between lo hi) vs else []).
Proof.
  unfold partition_valuesBetween. rewrite partition_write_lookup.
  destruct (decide (key' = key)) as [->|Hne]; [|rewrite app_nil_r; reflexivity].
  rewrite entry_valuesBetween_between.
  destruct (store p !! key) as [e|].
  - rewrite entry_valuesBetween_between. unfold add. cbn [values].
    rewrite append_elems. apply List.filter_app.
  - unfold newEntry. cbn [values]. rewrite append_elems. reflexivity.
Qed.

(** Reading after a sweep is reading before it with the lower bound
    raised to the threshold. *)
Lemma partition_removeBefore_read (p : partition T) (unixNano : Z) (key : string)
  (lo hi : Z) :
  partition_valuesBetween (partition_removeBefore p unixNano) key lo hi
  = partition_valuesBetween p key (Z.max lo unixNano) hi.
Proof.
  unfold partition_valuesBetween. rewrite partition_removeBefore_lookup.
  destruct (store p !! key) as [e|]; [|reflexivity].
  rewrite (entry_valuesBetween_between e).
  destruct (Nat.eqb_spec (length (elems (values e))) 0) as [Hz|_].
  - apply length_zero_iff_nil in Hz. rewrite Hz. reflexivity.
  - rewrite entry_valuesBetween_between, entry_removeBefore_elems.
    apply filter_sweep_between.
Qed.

Lemma getPartitions_removeBefore (s : shard T) (unixNano : Z) (key : string) :
  getPartitions (shard_removeBefore s unixNano) key =
  match getPartitions s key with
  | Some (i, p) => Some (i, partition_removeBefore p unixNano)
  | None => None
  end.
Proof.
  unfold getPartitions, shard_removeBefore. cbn [partitions]. rewrite length_map.
  destruct (_ =? _)%N; [reflexivity|].
  destruct (_ || _); [reflexivity|].
  rewrite list_lookup_fmap. destruct (partitions s !! _); reflexivity.
Qed.

(** In a ring of sixteen, a series is read from the partition in the
    slot of its hash. *)
Lemma readSeries_sixteen (s : shard T) (key : string) (lo hi : Z) :
  length (partitions s) = _partitionNum ->
  exists p,
    partitions s !! N.to_nat (Sum64 key mod 16) = Some p /\
    readSeries s key lo hi = Some (partition_valuesBetween p key lo hi).
Proof.
  intros Hlen. destruct (getPartitions_sixteen s key Hlen) as (p & Hg & Hp & _).
  exists p. split; [exact Hp|]. unfold readSeries. rewrite Hg. reflexivity.
Qed.

(** One step of [writeMulti], seen by a reader. *)
Lemma readSeries_write (s : shard T) (k : string) (vs : list (Value T)) (i : nat)
  (p : partition T) (key : string) (lo hi : Z) :
  length (partitions s) = _partitionNum ->
  getPartitions s k = Some (i, p) ->
  readSeries {| partitions := <[i := partition_write p k vs]> (partitions s) |} key lo hi
  = option_map
      (fun old => old ++ (if decide (key = k) then List.filter (between lo hi) vs else []))
      (readSeries s key lo hi).
Proof.
  intros Hlen Hg.
  destruct (getPartitions_sixteen s k Hlen) as (p0 & Hg0 & Hp0 & Hlt0).
  rewrite Hg in Hg0. inversion Hg0; subst i p0. clear Hg0.
  destruct (readSeries_sixteen s key lo hi Hlen) as (q & Hq & Hread). rewrite Hread.
  assert (Hlen2 : length (partitions
                    {| partitions := <[N.to_nat (Sum64 k mod 16)
                                       := partition_write p k vs]> (partitions s) |})
                  = _partitionNum)
    by (cbn [partitions]; rewrite length_insert; exact Hlen).
  destruct (readSeries_sixteen _ key lo hi Hlen2) as (q2 & Hq2 & Hread2).
  rewrite Hread2. cbn [partitions option_map] in *. f_equal.
  destruct (Nat.eq_dec (N.to_nat (Sum64 key mod 16)) (N.to_nat (Sum64 k mod 16)))
    as [Heq|Hne].
  - rewrite Heq in Hq2, Hq.
    rewrite list_lookup_insert_eq in Hq2 by (rewrite Hlen; unfold _partitionNum; lia).
    inversion Hq2; subst q2. rewrite Hp0 in Hq. inversion Hq; subst q.
    apply partition_write_read.
  - rewrite list_lookup_insert_ne in Hq2 by congruence.
    rewrite Hq in Hq2. inversion Hq2; subst q2.
    destruct (decide (key = k)) as [->|_]; [contradiction|].
    rewrite app_nil_r. reflexivity.
Qed.

Lemma placed_write (s : shard T) (k : string) (vs : list (Value T)) (i : nat)
  (p : partition T) :
  length (partitions s) = _partitionNum ->
  getPartitions s k = Some (i, p) -> placed s ->
  placed {| partitions := <[i := partition_write p k vs]> (partitions s) |}.
Proof.
  intros Hlen Hg Hpl j q key Hj Hkey. cbn [partitions] in Hj.
  destruct (getPartitions_sixteen s k Hlen) as (p0 & Hg0 & Hp0 & Hlt0).
  rewrite Hg in Hg0. inversion Hg0; subst i p0. clear Hg0.
  destruct (Nat.eq_dec j (N.to_nat (Sum64 k mod 16))) as [->|Hne].
  - rewrite list_lookup_insert_eq in Hj by (rewrite Hlen; unfold _partitionNum; lia).
    inversion Hj; subst q. rewrite partition_write_lookup in Hkey.
    destruct (decide (key = k)) as [->|_]; [reflexivity|].
    exact (Hpl _ p key Hp0 Hkey).
  - rewrite list_lookup_insert_ne in Hj by congruence. exact (Hpl j q key Hj Hkey).
Qed.

(** [writeMulti] on a ring of sixteen: it returns, keeps the ring and
    the placement, and a reader sees each series of the batch extended
    by its values. *)
Lemma writeMulti_reads (s : shard T) (batch : gmap string (list (Value T))) :
  length (partitions s) = _partitionNum ->
  exists s1,
    writeMulti s batch = Some s1 /\ length (partitions s1) = _partitionNum /\
    (placed s -> placed s1) /\
    forall key lo hi,
      readSeries s1 key lo hi
      = option_map
          (fun old => old ++ List.filter (between lo hi) (default [] (batch !! key)))
          (readSeries s key lo hi).
Proof.
  intros Hlen. unfold writeMulti.
  apply (map_fold_weak_ind
           (fun r (m : gmap string (list (Value T))) =>
              exists s1,
                r = Some s1 /\ length (partitions s1) = _partitionNum /\
                (placed s -> placed s1) /\
                forall key lo hi,
                  readSeries s1 key lo hi
                  = option_map
                      (fun old =>
                         old ++ List.filter (between lo hi) (default [] (m !! key)))
                      (readSeries s key lo hi))).
  - exists s. split; [reflexivity|]. split; [exact Hlen|]. split; [auto|].
    intros key lo hi. rewrite lookup_empty. cbn.
    destruct (readSeries s key lo hi); cbn; [rewrite app_nil_r|]; reflexivity.
  - intros k v m r Hk (s1 & -> & Hlen1 & Hpl1 & Hread1).
    destruct (getPartitions_sixteen s1 k Hlen1) as (p & Hg & _). rewrite Hg.
    eexists. split; [reflexivity|].
    split; [cbn [partitions]; rewrite length_insert; exact Hlen1|].
    split; [intros Hpl; exact (placed_write s1 k v _ p Hlen1 Hg (Hpl1 Hpl))|].
    intros key lo hi. rewrite (readSeries_write s1 k v _ p key lo hi Hlen1 Hg), Hread1.
    destruct (readSeries s key lo hi) as [old|]; [|reflexivity]. cbn [option_map].
    f_equal. rewrite <- app_assoc. f_equal.
    destruct (decide (key = k)) as [->|Hne].
    + rewrite Hk, lookup_insert_eq. reflexivity.
    + rewrite lookup_insert_ne by congruence. rewrite app_nil_r. reflexivity.
Qed.

Lemma placed_newShard : placed (newShard (T := T)).
Proof.
  intros j p key Hj [e He].
  assert (Hp : p = newPartition).
  { change (partitions (newShard (T := T))) with (replicate 16 (newPartition (T := T))) in Hj.
    apply lookup_replicate in Hj as [-> _]. reflexivity. }
  subst p. cbn in He. rewrite lookup_empty in He. discriminate.
Qed.

Lemma placed_removeBefore (s : shard T) (unixNano : Z) :
  placed s -> placed (shard_removeBefore s unixNano).
Proof.
  intros Hpl j p key Hj [e He]. unfold shard_removeBefore in Hj. cbn [partitions] in Hj.
  rewrite list_lookup_fmap in Hj.
  destruct (partitions s !! j) as [p0|] eqn:Hp0; [|discriminate].
  cbn in Hj. inversion Hj; subst p. rewrite partition_removeBefore_lookup in He.
  destruct (store p0 !! key) as [e0|] eqn:He0; [|discriminate].
  apply (Hpl j p0 key Hp0). rewrite He0. eauto.
Qed.

Lemma shard_reachable_placed (s : shard T) : shard_reachable s -> placed s.
Proof.
  induction 1 as [| s batch s1 Hr IH Hw | s unixNano _ IH].
  - apply placed_newShard.
  - destruct (writeMulti_reads s batch (shard_reachable_length s Hr))
      as (s2 & Hw2 & _ & Hpl & _).
    rewrite Hw in Hw2. inversion Hw2; subst. exact (Hpl IH).
  - apply placed_removeBefore, IH.
Qed.

End Generic.

End shard_more.

Module storage_more.
Import modelled shard shard_props shard_more views more_samples.
Local Open Scope Z_scope.

(** X16.  [entry.valuesBetween] returns the stored values whose
    timestamp lies between the bounds, both included, in the order they
    are stored: a value is returned exactly when it is stored and within
    the bounds, and nothing is returned when the upper bound is below the
    lower one. *)
Theorem valuesBetween_keeps_values_within_bounds `{Runtime} {T : Type}
  (e : entry T) (lo hi : Z) :
  entry_valuesBetween e lo hi = List.filter (between lo hi) (elems (values e)) /\
  (forall v, In v (entry_valuesBetween e lo hi) <->
             In v (elems (values e)) /\ lo <= UnixNano v <= hi) /\
  (hi < lo -> entry_valuesBetween e lo hi = []).
Proof.
  pose proof (entry_valuesBetween_between e lo hi) as Heq.
  assert (Hmem : forall v, In v (entry_valuesBetween e lo hi) <->
                           In v (elems (values e)) /\ lo <= UnixNano v <= hi).
  { intros v. rewrite Heq, filter_In. unfold between. rewrite andb_true_iff.
    rewrite Z.leb_le, Z.leb_le. reflexivity. }
  split; [exact Heq|]. split; [exact Hmem|].
  intros Hlt. destruct (entry_valuesBetween e lo hi) as [|v r]; [reflexivity|].
  destruct (proj1 (Hmem v) (or_introl eq_refl)) as [_ Hb]. lia.
Qed.

(** X17.  Writing to a partition and reading back: after [write] of
    values under a key, [valuesBetween] of that key returns what it
    returned before followed by the written values within the bounds, in
    their order, whether the key was there or not; every other key maps
    to what it mapped to. *)
Theorem write_then_valuesBetween `{Runtime} {T : Type}
  (p : partition T) (key : string) (vs : list (Value T)) (lo hi : Z) :
  partition_valuesBetween (partition_write p key vs) key lo hi
  = partition_valuesBetween p key lo hi ++ List.filter (between lo hi) vs /\
  (forall key', key' <> key -> store (partition_write p key vs) !! key' = store p !! key').
Proof.
  split.
  - rewrite partition_write_read. destruct (decide (key = key)); [reflexivity | contradiction].
  - intros key' Hne. rewrite partition_write_lookup.
    destruct (decide (key' = key)); [contradiction | reflexivity].
Qed.

(** X18.  Reading a partition after [removeBefore] is reading it before
    with the lower bound raised to the threshold: for every key and
    bounds, [valuesBetween(lo, hi)] after the sweep returns what
    [valuesBetween(max(lo, threshold), hi)] returned before it. *)
Theorem removeBefore_raises_lower_bound `{Runtime} {T : Type}
  (p : partition T) (threshold : Z) (key : string) (lo hi : Z) :
  partition_valuesBetween (partition_removeBefore p threshold) key lo hi
  = partition_valuesBetween p key (Z.max lo threshold) hi.
Proof. apply partition_removeBefore_read. Qed.

(** X19.  In every shard a running engine can hold, a series is stored
    only in the partition its hash selects: a partition that has an entry
    for a key sits in slot [hash mod 16], where [getPartitions] looks for
    the key. *)
Theorem series_stored_where_looked_up `{Runtime} {T : Type}
  (s : shard T) (j : nat) (p : partition T) (key : string) :
  shard_reachable s ->
  partitions s !! j = Some p -> is_Some (store p !! key) ->
  j = N.to_nat (Sum64 key mod 16) /\ getPartitions s key = Some (j, p).
Proof.
  intros Hr Hj Hkey.
  pose proof (shard_reachable_placed s Hr j p key Hj Hkey) as Hjk.
  split; [exact Hjk|].
  destruct (getPartitions_sixteen s key (shard_reachable_length s Hr)) as (q & Hg & Hq & _).
  rewrite <- Hjk in Hq, Hg. rewrite Hj in Hq. inversion Hq; subst q. exact Hg.
Qed.

Lemma series_stored_where_looked_up_witness :
  exists (s : shard Z) (j : nat) (p : partition Z),
    writeMulti newShard {[ "a=b" := [value 1 10; value 2 20] ]} = Some s /\
    shard_reachable s /\
    partitions s !! j = Some p /\ is_Some (store p !! "a=b") /\
    j = N.to_nat (Sum64 "a=b" mod 16) /\ getPartitions s "a=b" = Some (j, p).
Proof.
  destruct (writeMulti (T := Z) newShard {[ "a=b" := [value 1 10; value 2 20] ]})
    as [s|] eqn:Hw; [|vm_compute in Hw; discriminate].
  assert (Hr : shard_reachable s) by exact (reach_writeMulti _ _ _ reach_new Hw).
  destruct (partitions s !! 0%nat) as [p|] eqn:Hj;
    [|vm_compute in Hw; inversion Hw; subst s; discriminate].
  assert (Hkey : is_Some (store p !! "a=b")).
  { vm_compute in Hw. inversion Hw; subst s. cbn in Hj. inversion Hj; subst p.
    eexists. vm_compute. reflexivity. }
  exists s, 0%nat, p. split; [reflexivity|]. split; [exact Hr|].
  split; [exact Hj|]. split; [exact Hkey|].
  exact (series_stored_where_looked_up s 0%nat p "a=b" Hr Hj Hkey).
Defined.

(** X20.  [writeMulti] and reading back: on every shard a running
    engine can hold, [writeMulti] returns for every batch, and a reader
    of any series then gets what it got before followed by the values
    the batch has for that series within the bounds (nothing more for a
    series that is not in the batch). *)
Theorem writeMulti_then_read `{Runtime} {T : Type}
  (s : shard T) (batch : gmap string (list (Value T))) :
  shard_reachable s ->
  exists s1,
    writeMulti s batch = Some s1 /\ shard_reachable s1 /\
    forall key lo hi,
      exists old,
        readSeries s key lo hi = Some old /\
        readSeries s1 key lo hi
        = Some (old ++ List.filter (between lo hi) (default [] (batch !! key))).
Proof.
  intros Hr. pose proof (shard_reachable_length s Hr) as Hlen.
  destruct (writeMulti_reads s batch Hlen) as (s1 & Hw & _ & _ & Hread).
  exists s1. split; [exact Hw|]. split; [exact (reach_writeMulti _ _ _ Hr Hw)|].
  intros key lo hi.
  destruct (readSeries_sixteen s key lo hi Hlen) as (p & _ & Hold).
  eexists. split; [exact Hold|]. rewrite Hread, Hold. reflexivity.
Qed.

Lemma writeMulti_then_read_witness :
  shard_reachable (newShard (T := Z)) /\
  exists s1,
    writeMulti newShard {[ "a=b" := [value 1 10; value 2 20] ]} = Some s1 /\
    shard_reachable s1 /\
    forall key lo hi,
      exists old,
        readSeries newShard key lo hi = Some old /\
        readSeries s1 key lo hi
        = Some (old ++ List.filter (between lo hi)
                         (default [] (({[ "a=b" := [value 1 10; value 2 20] ]}
                                        : gmap string (list (Value Z))) !! key))).
Proof.
  split; [exact reach_new|].
  exact (writeMulti_then_read newShard {[ "a=b" := [value 1 10; value 2 20] ]} reach_new).
Defined.

(** X21.  [shard.removeBefore] seen by a reader: for every shard, key
    and bounds, reading after the sweep gives what reading with the
    lower bound raised to the threshold gave before it, and the sweep
    does not move the series to another partition. *)
Theorem shard_removeBefore_then_read `{Runtime} {T : Type}
  (s : shard T) (threshold : Z) (key : string) (lo hi : Z) :
  readSeries (shard_removeBefore s threshold) key lo hi
  = readSeries s key (Z.max lo threshold) hi /\
  getPartitions (shard_removeBefore s threshold) key
  = match getPartitions s key with
    | Some (i, p) => Some (i, partition_removeBefore p threshold)
    | None => None
    end.
Proof.
  split; [|apply getPartitions_removeBefore].
  unfold readSeries. rewrite getPartitions_removeBefore.
  destruct (getPartitions s key) as [[i p]|]; [|reflexivity].
  rewrite partition_removeBefore_read. reflexivity.
Qed.

End storage_more.

(** ** More on the generic engine *)

Module tsdb_more.
Import tsdb tsdb_props shard_props shard_more views.
Local Open Scope Z_scope.

Section Generic.
Context `{shard.Runtime} `{Collaborators} {T : Type}.

Lemma valuesOf_cons (key : string) (point : Point T) (rest : list (Point T)) :
  valuesOf key (point :: rest) =
  if String.eqb (Series (tags point)) key
  then pointValue point :: valuesOf key rest
  else valuesOf key rest.
Proof.
  unfold valuesOf, hasKey. cbn [List.filter].
  destruct (String.eqb (Series (tags point)) key); reflexivity.
Qed.

Lemma firstTags_cons (key : string) (point : Point T) (rest : list (Point T)) :
  firstTags key (point :: rest) =
  if String.eqb (Series (tags point)) key then Some (tags point) else firstTags key rest.
Proof.
  unfold firstTags, hasKey. cbn [List.find].
  destruct (String.eqb (Series (tags point)) key); reflexivity.
Qed.

(** The loop of [WritePoints] on a batch without empty keys: it ends
    with the maps extended, per series, by the values in the order of the
    batch and by the tags of the first point, unless tags are recorded
    already. *)
Lemma groupPoints_maps (points : list (Point T)) :
  Forall (fun p => emptyKey p = false) points ->
  forall seriesTags values,
  exists seriesTags1 values1,
    groupPoints points seriesTags values = inr (seriesTags1, values1) /\
    (forall key,
       values1 !! key =
       match valuesOf key points with
       | [] => values !! key
       | vs => Some (default [] (values !! key) ++ vs)
       end) /\
    (forall key,
       seriesTags1 !! key =
       match seriesTags !! key with
       | Some tags0 => Some tags0
       | None => firstTags key points
       end).
Proof.
  induction 1 as [|point rest Hpoint _ IH]; intros seriesTags values.
  - exists seriesTags, values. split; [reflexivity|]. split; intros key; cbn.
    + reflexivity.
    + destruct (seriesTags !! key); reflexivity.
  - cbn [groupPoints]. cbv zeta. unfold emptyKey in Hpoint. rewrite Hpoint.
    set (s := Series (tags point)).
    set (values0 := <[s := default [] (values !! s)
                            ++ [{| shard.UnixNano := GoTime.UnixNano (time point);
                                   shard.V := field point |}]]> values).
    assert (Hvalues : forall (values1 : gmap string (list (shard.Value T))) key,
              values1 !! key =
                match valuesOf key rest with
                | [] => values0 !! key
                | vs => Some (default [] (values0 !! key) ++ vs)
                end ->
              values1 !! key =
                match valuesOf key (point :: rest) with
                | [] => values !! key
                | vs => Some (default [] (values !! key) ++ vs)
                end).
    { intros values1 key Hv. rewrite Hv, valuesOf_cons. fold s.
      destruct (String.eqb_spec s key) as [<-|Hne].
      - unfold values0. rewrite lookup_insert_eq. cbn [from_option id].
        destruct (valuesOf s rest); [reflexivity|].
        rewrite <- app_assoc. reflexivity.
      - unfold values0. rewrite lookup_insert_ne by exact Hne. reflexivity. }
    destruct (seriesTags !! s) as [tags0|] eqn:Hs.
    + destruct (IH seriesTags values0) as (st1 & vs1 & Hg & Hv & Ht).
      exists st1, vs1. split; [exact Hg|]. split.
      * intros key. apply Hvalues, Hv.
      * intros key. rewrite Ht, firstTags_cons. fold s.
        destruct (seriesTags !! key) eqn:Hk; [reflexivity|].
        destruct (String.eqb_spec s key) as [<-|_]; [congruence | reflexivity].
    + destruct (IH (<[s := tags point]> seriesTags) values0) as (st1 & vs1 & Hg & Hv & Ht).
      exists st1, vs1. split; [exact Hg|]. split.
      * intros key. apply Hvalues, Hv.
      * intros key. rewrite Ht, firstTags_cons. fold s.
        destruct (String.eqb_spec s key) as [<-|Hne].
        -- rewrite lookup_insert_eq, Hs. reflexivity.
        -- rewrite lookup_insert_ne by exact Hne. reflexivity.
Qed.

Lemma existsb_emptyKey_true (points : list (Point T)) :
  existsb emptyKey points = true ->
  exists p, In p points /\ String.length (Series (tags p)) = 0%nat.
Proof.
  intros He. apply existsb_exists in He as (p & Hin & Hp).
  exists p. split; [exact Hin|]. unfold emptyKey in Hp. apply Nat.eqb_eq, Hp.
Qed.

Lemma existsb_emptyKey_false (points : list (Point T)) :
  existsb emptyKey points = false -> Forall (fun p => emptyKey p = false) points.
Proof.
  induction points as [|p rest IH]; cbn; [constructor|].
  intros He. apply orb_false_iff in He as [Hp Hrest]. constructor; auto.
Qed.

Lemma sound_New (retention : Z) (db : TSDB T) : New retention = Some db -> sound db.
Proof.
  unfold New. destruct (Z.leb_spec retention 0); [discriminate|].
  intros Hn. inversion Hn; subst. repeat split; cbn; [apply shard.reach_new | lia].
Qed.

Lemma sound_step (db db1 : TSDB T) : sound db -> step db db1 -> sound db1.
Proof.
  intros (Hc & Hs & Hr) Hstep.
  destruct Hstep as [db points err db1 Hw | db db1 Hstop | db now db1 Ht].
  - unfold WritePoints in Hw. destruct (isClosed db) eqn:Hcl.
    + inversion Hw; subst. split; [congruence|]. split; assumption.
    + destruct (groupPoints points ∅ ∅) as [e|[st vs]].
      * inversion Hw; subst. split; [congruence|]. split; assumption.
      * destruct (shard.writeMulti (store db) vs) as [store1|] eqn:Hwm; [|discriminate].
        inversion Hw; subst. split; [cbn; congruence|]. split; [|exact Hr].
        exact (shard.reach_writeMulti _ _ _ Hs Hwm).
  - unfold Stop in Hstop. destruct (gcRunning db) eqn:Hg; [|discriminate].
    inversion Hstop; subst. split; [reflexivity|]. split; assumption.
  - unfold gcTick in Ht. destruct (gcRunning db) eqn:Hg; [|discriminate].
    inversion Ht; subst. split; [exact Hc|]. split; [|exact Hr].
    apply shard.reach_removeBefore, Hs.
Qed.

Lemma sound_steps (db db1 : TSDB T) : sound db -> steps db db1 -> sound db1.
Proof.
  intros Hs Hsteps. induction Hsteps as [|db db1 db2 _ IH Hstep]; [exact Hs|].
  exact (sound_step db1 db2 (IH Hs) Hstep).
Qed.

Lemma engine_reachable_sound (db : TSDB T) : engine_reachable db -> sound db.
Proof.
  intros (retention & db0 & Hnew & Hsteps).
  exact (sound_steps db0 db (sound_New retention db0 Hnew) Hsteps).
Qed.

Lemma engine_reachable_step (db db1 : TSDB T) :
  engine_reachable db -> step db db1 -> engine_reachable db1.
Proof.
  intros (retention & db0 & Hnew & Hsteps) Hstep.
  exists retention, db0. split; [exact Hnew|]. exact (steps_next db0 db db1 Hsteps Hstep).
Qed.

(** [WritePoints] on an open engine with a sound store and a batch
    without empty keys. *)
Lemma WritePoints_writes (db : TSDB T) (points : list (Point T)) :
  isClosed db = false -> shard.shard_reachable (store db) ->
  Forall (fun p => emptyKey p = false) points ->
  exists seriesTags store1,
    WritePoints db points
    = Some (None, {| retentionPolicy := retentionPolicy db; gcRunning := gcRunning db;
                     isClosed := isClosed db;
                     idx := createSeriesIfNotExists (idx db) seriesTags;
                     store := store1 |}) /\
    (forall key, seriesTags !! key = firstTags key points) /\
    shard.shard_reachable store1 /\
    forall key lo hi,
      exists old,
        readSeries (store db) key lo hi = Some old /\
        readSeries store1 key lo hi
        = Some (old ++ List.filter (between lo hi) (valuesOf key points)).
Proof.
  intros Hopen Hs Hpts. unfold WritePoints. rewrite Hopen.
  destruct (groupPoints_maps points Hpts ∅ ∅) as (st & vs & Hg & Hv & Ht). rewrite Hg.
  pose proof (shard_reachable_length (store db) Hs) as Hlen.
  destruct (writeMulti_reads (store db) vs Hlen) as (store1 & Hw & _ & _ & Hread).
  rewrite Hw. exists st, store1. split; [reflexivity|]. split.
  - intros key. rewrite Ht, lookup_empty. reflexivity.
  - split; [exact (shard.reach_writeMulti _ _ _ Hs Hw)|]. intros key lo hi.
    destruct (readSeries_sixteen (store db) key lo hi Hlen) as (p & _ & Hold).
    eexists. split; [exact Hold|]. rewrite Hread, Hold. cbn [option_map].
    rewrite Hv, lookup_empty. destruct (valuesOf key points); reflexivity.
Qed.

End Generic.

End tsdb_more.

Module generic_more.
Import modelled samples more_samples shard_props shard_more tsdb tsdb_props tsdb_more views.
Local Open Scope Z_scope.

Lemma newEngine_reachable : engine_reachable newEngine.
Proof. exists GoTime.Minute, newEngine. split; [reflexivity | apply steps_refl]. Qed.

(** X22.  On every engine a program can hold, [WritePoints] returns for
    every batch (nothing in it panics), and with the error the state and
    the batch determine: the closed-engine error on a closed engine,
    else the missing-tag error when some point has an empty series key,
    else none; when it returns an error the engine is left as it was. *)
Theorem WritePoints_result `{shard.Runtime} `{Collaborators} {T : Type}
  (db : TSDB T) (points : list (Point T)) :
  engine_reachable db ->
  exists db1,
    WritePoints db points = Some (expectedError db points, db1) /\
    engine_reachable db1 /\
    (expectedError db points <> None -> db1 = db).
Proof.
  intros Hr. destruct (engine_reachable_sound db Hr) as (_ & Hs & _).
  assert (Hgo : forall err db1, WritePoints db points = Some (err, db1) ->
                                engine_reachable db1)
    by (intros err db1 Hw; exact (engine_reachable_step db db1 Hr
                                    (step_WritePoints db points err db1 Hw))).
  unfold expectedError. destruct (isClosed db) eqn:Hc.
  - exists db. pose proof (WritePoints_closed db points Hc) as Hw.
    split; [exact Hw|]. split; [exact (Hgo _ _ Hw) | reflexivity].
  - destruct (existsb emptyKey points) eqn:He.
    + assert (Hw : WritePoints db points = Some (Some ErrPointMissingTag, db)).
      { unfold WritePoints. rewrite Hc.
        rewrite (groupPoints_missing_tag points (existsb_emptyKey_true points He)).
        reflexivity. }
      exists db. split; [exact Hw|]. split; [exact (Hgo _ _ Hw) | reflexivity].
    + destruct (WritePoints_writes db points Hc Hs (existsb_emptyKey_false points He))
        as (st & store1 & Hw & _).
      eexists. split; [exact Hw|]. split; [exact (Hgo _ _ Hw) | congruence].
Qed.

Lemma WritePoints_result_witness :
  engine_reachable newEngine /\
  expectedError newEngine [taggedAt 1 1; otherAt 2 2; taggedAt 3 3] = None /\
  exists db1,
    WritePoints newEngine [taggedAt 1 1; otherAt 2 2; taggedAt 3 3]
    = Some (expectedError newEngine [taggedAt 1 1; otherAt 2 2; taggedAt 3 3], db1) /\
    engine_reachable db1 /\
    (expectedError newEngine [taggedAt 1 1; otherAt 2 2; taggedAt 3 3] <> None ->
     db1 = newEngine).
Proof.
  split; [exact newEngine_reachable|]. split; [reflexivity|].
  exact (WritePoints_result newEngine [taggedAt 1 1; otherAt 2 2; taggedAt 3 3]
           newEngine_reachable).
Defined.

(** X23.  Writing and reading back: on an engine a program can hold
    that is not closed, for a batch without empty series keys,
    [WritePoints] returns no error, keeps the retention and the closed
    state, and a reader of any series then gets what it got before
    followed by the values of the points of that series, in the order of
    the batch, that lie within the bounds. *)
Theorem WritePoints_then_read `{shard.Runtime} `{Collaborators} {T : Type}
  (db : TSDB T) (points : list (Point T)) :
  engine_reachable db -> isClosed db = false ->
  Forall (fun p => emptyKey p = false) points ->
  exists db1,
    WritePoints db points = Some (None, db1) /\
    retentionPolicy db1 = retentionPolicy db /\ isClosed db1 = false /\
    forall key lo hi,
      exists old,
        readSeries (store db) key lo hi = Some old /\
        readSeries (store db1) key lo hi
        = Some (old ++ List.filter (between lo hi) (valuesOf key points)).
Proof.
  intros Hr Hc Hpts. destruct (engine_reachable_sound db Hr) as (_ & Hs & _).
  destruct (WritePoints_writes db points Hc Hs Hpts) as (st & store1 & Hw & _ & _ & Hread).
  eexists. split; [exact Hw|]. cbn [retentionPolicy isClosed store].
  split; [reflexivity|]. split; [exact Hc | exact Hread].
Qed.

Lemma WritePoints_then_read_witness :
  engine_reachable newEngine /\ isClosed newEngine = false /\
  Forall (fun p : Point Z => emptyKey p = false) [taggedAt 1 1; otherAt 2 2; taggedAt 3 3] /\
  exists db1,
    WritePoints newEngine [taggedAt 1 1; otherAt 2 2; taggedAt 3 3] = Some (None, db1) /\
    retentionPolicy db1 = retentionPolicy newEngine /\ isClosed db1 = false /\
    forall key lo hi,
      exists old,
        readSeries (store newEngine) key lo hi = Some old /\
        readSeries (store db1) key lo hi
        = Some (old ++ List.filter (between lo hi)
                         (valuesOf key [taggedAt 1 1; otherAt 2 2; taggedAt 3 3])).
Proof.
  assert (Hpts : Forall (fun p : Point Z => emptyKey p = false)
                   [taggedAt 1 1; otherAt 2 2; taggedAt 3 3])
    by (repeat constructor).
  split; [exact newEngine_reachable|]. split; [reflexivity|]. split; [exact Hpts|].
  exact (WritePoints_then_read newEngine [taggedAt 1 1; otherAt 2 2; taggedAt 3 3]
           newEngine_reachable eq_refl Hpts).
Defined.

(** X24.  What the loop of [WritePoints] hands on: for a batch with a
    point of empty series key it is the missing-tag error; otherwise the
    two maps hold, for each series of the batch and for no other key, the
    values of its points in the order of the batch, and the tags of its
    first point. *)
Theorem WritePoints_groups_batch `{shard.Runtime} `{Collaborators} {T : Type}
  (points : list (Point T)) :
  if existsb emptyKey points
  then groupPoints points ∅ ∅ = inl ErrPointMissingTag
  else exists seriesTags values,
         groupPoints points ∅ ∅ = inr (seriesTags, values) /\
         (forall key, seriesTags !! key = firstTags key points) /\
         (forall key,
            values !! key =
            match valuesOf key points with
            | [] => None
            | vs => Some vs
            end).
Proof.
  destruct (existsb emptyKey points) eqn:He.
  - exact (groupPoints_missing_tag points (existsb_emptyKey_true points He) ∅ ∅).
  - destruct (groupPoints_maps points (existsb_emptyKey_false points He) ∅ ∅)
      as (st & vs & Hg & Hv & Ht).
    exists st, vs. split; [exact Hg|]. split.
    + intros key. rewrite Ht, lookup_empty. reflexivity.
    + intros key. rewrite Hv, lookup_empty. destruct (valuesOf key points); reflexivity.
Qed.

(** X25.  Whenever [WritePoints] returns, the retention, the closed
    state and the state of [gc] are what they were, and when it returns
    an error the whole engine, index and store included, is what it
    was. *)
Theorem WritePoints_keeps_state `{shard.Runtime} `{Collaborators} {T : Type}
  (db : TSDB T) (points : list (Point T)) (err : option error) (db1 : TSDB T) :
  WritePoints db points = Some (err, db1) ->
  retentionPolicy db1 = retentionPolicy db /\ isClosed db1 = isClosed db /\
  gcRunning db1 = gcRunning db /\ (err <> None -> db1 = db).
Proof.
  unfold WritePoints. destruct (isClosed db) eqn:Hc.
  - intros Hw. inversion Hw; subst. rewrite Hc. repeat split.
  - destruct (groupPoints points ∅ ∅) as [e|[st vs]].
    + intros Hw. inversion Hw; subst. rewrite Hc. repeat split.
    + destruct (shard.writeMulti (store db) vs); [|discriminate].
      intros Hw. inversion Hw; subst. cbn. repeat split. congruence.
Qed.

Lemma WritePoints_keeps_state_witness :
  exists (err : option error) (db1 : TSDB Z),
    WritePoints newEngine [taggedAt 1 1; otherAt 2 2] = Some (err, db1) /\
    retentionPolicy db1 = retentionPolicy newEngine /\
    isClosed db1 = isClosed newEngine /\
    gcRunning db1 = gcRunning newEngine /\ (err <> None -> db1 = newEngine).
Proof.
  assert (Hpts : Forall (fun p : Point Z => emptyKey p = false) [taggedAt 1 1; otherAt 2 2])
    by (repeat constructor).
  destruct (WritePoints_writes newEngine [taggedAt 1 1; otherAt 2 2] eq_refl
              shard.reach_new Hpts) as (st & store1 & Hw & _).
  eexists _, _. split; [exact Hw|].
  exact (WritePoints_keeps_state newEngine [taggedAt 1 1; otherAt 2 2] _ _ Hw).
Defined.

(** X26.  On every engine a program can hold: it is closed exactly when
    its [gc] has returned, its retention is positive, and [Stop] returns
    exactly when the engine is not closed: a second [Stop] never
    returns. *)
Theorem Stop_returns_once `{shard.Runtime} `{Collaborators} {T : Type} (db : TSDB T) :
  engine_reachable db ->
  isClosed db = negb (gcRunning db) /\ 0 < retentionPolicy db /\
  (Stop db = None <-> isClosed db = true) /\
  (forall db1, Stop db = Some db1 -> Stop db1 = None).
Proof.
  intros Hr. destruct (engine_reachable_sound db Hr) as (Hc & _ & Hpos).
  split; [exact Hc|]. split; [exact Hpos|]. unfold Stop. split.
  - destruct (gcRunning db); cbn in Hc; rewrite Hc; split; intros; try reflexivity;
      discriminate.
  - intros db1. destruct (gcRunning db); [|discriminate].
    intros Hs. inversion Hs; subst. reflexivity.
Qed.

Lemma Stop_returns_once_witness :
  engine_reachable stoppedEngine /\
  isClosed stoppedEngine = negb (gcRunning stoppedEngine) /\
  0 < retentionPolicy stoppedEngine /\
  (Stop stoppedEngine = None <-> isClosed stoppedEngine = true) /\
  (forall db1, Stop stoppedEngine = Some db1 -> Stop db1 = None).
Proof.
  assert (Hr : engine_reachable stoppedEngine).
  { exists GoTime.Minute, newEngine. split; [reflexivity|].
    apply (steps_next _ newEngine _ (steps_refl _)). apply step_Stop. reflexivity. }
  split; [exact Hr|]. exact (Stop_returns_once stoppedEngine Hr).
Defined.



(** X28.  [New] gives an engine exactly for a positive retention; that
    engine is not closed, its [gc] runs, and every series reads empty
    for every pair of bounds. *)
Theorem New_engine_is_open_and_empty `{shard.Runtime} `{Collaborators} {T : Type}
  (retention : Z) :
  (retention <= 0 <-> New (T := T) retention = None) /\
  forall db : TSDB T,
    New retention = Some db ->
    isClosed db = false /\ gcRunning db = true /\ retentionPolicy db = retention /\
    forall key lo hi, readSeries (store db) key lo hi = Some [].
Proof.
  unfold New. destruct (Z.leb_spec retention 0) as [Hle|Hgt].
  - split; [split; [reflexivity | intros _; exact Hle] | discriminate].
  - split; [split; [lia | discriminate]|].
    intros db Hn. inversion Hn; subst. cbn [isClosed gcRunning retentionPolicy store].
    repeat split. intros key lo hi.
    destruct (readSeries_sixteen (shard.newShard (T := T)) key lo hi newShard_length)
      as (p & Hp & Hread).
    rewrite Hread. f_equal.
    change (shard.partitions (shard.newShard (T := T)))
      with (replicate 16 (shard.newPartition (T := T))) in Hp.
    apply lookup_replicate in Hp as [-> _]. reflexivity.
Qed.

End generic_more.
